(** * The G2D buffer map of LVGL's NXP draw unit

    A shallow embedding of [src/draw/nxp/g2d/lv_g2d_buf_map.c]: a hash table
    of fixed size [HASH_TABLE_SIZE] from a key pointer to a [struct g2d_buf]
    pointer, with one overflow list per bucket.

    The C code works on heap blocks through pointers, releases them with
    [lv_free] and reads fields that were never written.  The embedding keeps
    all of that visible:

    - a pointer is an address ([Z], [NULL] is 0);
    - the [lv_map_item_t] blocks and the [lv_list_t] blocks live in two
      finite maps from addresses to records; releasing a block deletes it
      from its map, and reading or writing through an address that is not
      in the map aborts the run (the C program has undefined behaviour
      there);
    - [lv_malloc] hands out fresh addresses from a counter and never
      reuses one;
    - the content of a block that [lv_malloc] returns is indeterminate: it
      is a parameter [uninit] of the development;
    - the calls that leave this file ([lv_free] on a key, [g2d_free],
      [G2D_ASSERT_MSG]) are recorded in a trace. *)

From Stdlib Require Import ZArith List Lia Ascii String HexString Bool.
From Stdlib Require Import Permutation.
From stdpp Require Import base gmap list strings.

Local Open Scope Z_scope.

(** ** Data *)

Abbreviation ptr := Z.
Definition NULL : ptr := 0.

Definition HASH_TABLE_SIZE : Z := 50.

(** [lv_map_item_t]: [void * key; struct g2d_buf * value]. *)
Record lv_map_item_t := MapItem { key : ptr; value : ptr }.

(** [lv_list_t]: [lv_map_item_t * item; struct lv_list * next]. *)
Record lv_list_t := ListNode { item : ptr; next : ptr }.

(** What the table asks of its collaborators. *)
Inductive event :=
| LvFreeKey (p : ptr)        (* lv_free(item->key) *)
| G2dFree (p : ptr)          (* g2d_free(item->value) *)
| AssertMsg (msg : string).  (* G2D_ASSERT_MSG(false, msg) *)

#[global] Instance event_eq_dec : EqDecision event.
Proof. solve_decision. Defined.

(** The program state: the fields of the [lv_buf_map_t] that the static
    [table] points to, the two heaps, the allocation counter and the trace.
    [items] and [overflow_list] are the two arrays; they are empty while no
    table exists (before [lv_create_buf_map], after [lv_free_buf_map]), so
    that any indexing then aborts. *)
Record state := State {
  tsize : Z;                            (* table->size *)
  count : Z;                            (* table->count *)
  items : list ptr;                     (* table->items *)
  overflow_list : list ptr;             (* table->overflow_list *)
  item_mem : gmap Z lv_map_item_t;      (* live lv_map_item_t blocks *)
  list_mem : gmap Z lv_list_t;          (* live lv_list_t blocks *)
  brk : positive;                       (* next address lv_malloc returns *)
  trace : list event
}.

Definition with_count (c : Z) (s : state) : state :=
  State (tsize s) c (items s) (overflow_list s) (item_mem s) (list_mem s) (brk s) (trace s).
Definition with_items (l : list ptr) (s : state) : state :=
  State (tsize s) (count s) l (overflow_list s) (item_mem s) (list_mem s) (brk s) (trace s).
Definition with_overflow_list (l : list ptr) (s : state) : state :=
  State (tsize s) (count s) (items s) l (item_mem s) (list_mem s) (brk s) (trace s).
Definition with_item_mem (m : gmap Z lv_map_item_t) (s : state) : state :=
  State (tsize s) (count s) (items s) (overflow_list s) m (list_mem s) (brk s) (trace s).
Definition with_list_mem (m : gmap Z lv_list_t) (s : state) : state :=
  State (tsize s) (count s) (items s) (overflow_list s) (item_mem s) m (brk s) (trace s).
Definition with_brk (b : positive) (s : state) : state :=
  State (tsize s) (count s) (items s) (overflow_list s) (item_mem s) (list_mem s) b (trace s).
Definition with_trace (t : list event) (s : state) : state :=
  State (tsize s) (count s) (items s) (overflow_list s) (item_mem s) (list_mem s) (brk s) t.

(** ** The monad of the C functions *)

(** Why a run did not return. *)
Inductive abort :=
| BadAccess    (* access through NULL, a released block or a wild pointer,
                  or an index outside an array *)
| NoReturn.    (* a loop that never ends *)

Inductive outcome (A : Type) : Type :=
| Done (a : A) (s : state)
| Abort (why : abort) (s : state).
Arguments Done {A} a s.
Arguments Abort {A} why s.

Definition M (A : Type) : Type := state -> outcome A.

Definition ret {A} (a : A) : M A := fun s => Done a s.
Definition bind {A B} (m : M A) (k : A -> M B) : M B :=
  fun s => match m s with
           | Done a s' => k a s'
           | Abort w s' => Abort w s'
           end.
Definition fail {A} (w : abort) : M A := fun s => Abort w s.

Notation "'let*' x ':=' m 'in' k" := (bind m (fun x => k))
  (at level 10, x name, m at level 100, k at level 200).

(** The state a run stops in, returned or not. *)
Definition final {A} (o : outcome A) : state :=
  match o with Done _ s => s | Abort _ s => s end.

(** *** Memory primitives *)

(** The block an address designates, if any; [NULL] designates none. *)
Definition cell {A} (m : gmap Z A) (p : ptr) : option A :=
  if decide (p = NULL) then None else m !! p.

Definition emit (e : event) : M unit :=
  fun s => Done tt (with_trace (trace s ++ [e]) s).

Definition load_item (p : ptr) : M lv_map_item_t :=
  fun s => match cell (item_mem s) p with
           | Some it => Done it s
           | None => Abort BadAccess s
           end.

Definition store_item (p : ptr) (it : lv_map_item_t) : M unit :=
  fun s => match cell (item_mem s) p with
           | Some _ => Done tt (with_item_mem (<[p := it]> (item_mem s)) s)
           | None => Abort BadAccess s
           end.

Definition free_item (p : ptr) : M unit :=
  fun s => match cell (item_mem s) p with
           | Some _ => Done tt (with_item_mem (delete p (item_mem s)) s)
           | None => Abort BadAccess s
           end.

Definition load_list (p : ptr) : M lv_list_t :=
  fun s => match cell (list_mem s) p with
           | Some n => Done n s
           | None => Abort BadAccess s
           end.

Definition store_list (p : ptr) (n : lv_list_t) : M unit :=
  fun s => match cell (list_mem s) p with
           | Some _ => Done tt (with_list_mem (<[p := n]> (list_mem s)) s)
           | None => Abort BadAccess s
           end.

Definition free_list (p : ptr) : M unit :=
  fun s => match cell (list_mem s) p with
           | Some _ => Done tt (with_list_mem (delete p (list_mem s)) s)
           | None => Abort BadAccess s
           end.

(** Stores into one field of a block. *)
Definition store_item_value (p v : ptr) : M unit :=
  let* i := load_item p in store_item p (MapItem (key i) v).
Definition store_list_item (p v : ptr) : M unit :=
  let* n := load_list p in store_list p (ListNode v (next n)).
Definition store_list_next (p v : ptr) : M unit :=
  let* n := load_list p in store_list p (ListNode (item n) v).

(** [table->items[index]] and [table->overflow_list[index]], read and
    written. *)
Definition get_items (index : nat) : M ptr :=
  fun s => match items s !! index with
           | Some p => Done p s
           | None => Abort BadAccess s
           end.

Definition set_items (index : nat) (p : ptr) : M unit :=
  fun s => match items s !! index with
           | Some _ => Done tt (with_items (<[index := p]> (items s)) s)
           | None => Abort BadAccess s
           end.

Definition get_overflow_list (index : nat) : M ptr :=
  fun s => match overflow_list s !! index with
           | Some p => Done p s
           | None => Abort BadAccess s
           end.

Definition set_overflow_list (index : nat) (p : ptr) : M unit :=
  fun s => match overflow_list s !! index with
           | Some _ => Done tt (with_overflow_list (<[index := p]> (overflow_list s)) s)
           | None => Abort BadAccess s
           end.

Definition get_count : M Z := fun s => Done (count s) s.
Definition set_count (c : Z) : M unit := fun s => Done tt (with_count c s).
Definition get_size : M Z := fun s => Done (tsize s) s.

(** The number of live list nodes: a walk along [next] links that is
    longer than this has entered a cycle. *)
Definition live_nodes : M nat := fun s => Done (size (list_mem s)) s.

(** ** The functions of the file *)

Section BufMap.

(** The indeterminate content of the [lv_list_t] block that [lv_malloc]
    returns at a given address. *)
Variable uninit : ptr -> lv_list_t.

(** The text that [sprintf(str, "%p", ptr)] writes; the format is left to
    the C library. *)
Variable sprintf_p : ptr -> string.

(** [for(int j = 0; str[j]; j++) i += str[j];] on an [unsigned long] [i]:
    the walk stops at the first NUL. *)
Fixpoint sum_chars (str : string) (i : Z) : Z :=
  match str with
  | EmptyString => i
  | String c rest =>
      if (nat_of_ascii c =? 0)%nat then i
      else sum_chars rest ((i + Z.of_nat (nat_of_ascii c)) mod 2 ^ 64)
  end.

Definition _map_hash_function (p : ptr) : Z :=
  sum_chars (sprintf_p p) 0 mod HASH_TABLE_SIZE.

(** [int index = _map_hash_function(key);] *)
Definition index_of (k : ptr) : nat := Z.to_nat (_map_hash_function k).

Definition _map_create_item (k v : ptr) : M ptr :=
  fun s =>
    let p := Z.pos (brk s) in
    Done p (with_brk (Pos.succ (brk s))
              (with_item_mem (<[p := MapItem k v]> (item_mem s)) s)).

(** The stores of NULL into [item->key] and [item->value] come right before
    the block is released and are not observable. *)
Definition _map_free_item (it : ptr) : M unit :=
  let* i := load_item it in
  let* _ := emit (LvFreeKey (key i)) in
  let* _ := emit (G2dFree (value i)) in
  free_item it.

Definition _list_alloc : M ptr :=
  fun s =>
    let p := Z.pos (brk s) in
    Done p (with_brk (Pos.succ (brk s))
              (with_list_mem (<[p := uninit p]> (list_mem s)) s)).

(** [node->item = it; node->next = NULL;] on a fresh node. *)
Definition new_node (it : ptr) : M ptr :=
  let* node := _list_alloc in
  let* _ := store_list_item node it in
  let* _ := store_list_next node NULL in
  ret node.

(** [while(temp->next->next) temp = temp->next;] *)
Fixpoint _list_insert_seek (fuel : nat) (temp : ptr) : M ptr :=
  match fuel with
  | O => fail NoReturn
  | S fuel' =>
      let* t := load_list temp in
      let* tn := load_list (next t) in
      if decide (next tn = NULL) then ret temp
      else _list_insert_seek fuel' (next t)
  end.

Definition _list_insert (list it : ptr) : M ptr :=
  if decide (list = NULL) then new_node it
  else
    let* l := load_list list in
    if decide (next l = NULL) then
      let* node := new_node it in
      let* _ := store_list_next list node in
      ret list
    else
      let* n := live_nodes in
      let* temp := _list_insert_seek (S n) list in
      let* node := new_node it in
      let* _ := store_list_next temp node in
      ret list.

(** [_list_free]: every node from [list] on is released together with its
    item, the item's key and the item's value. *)
Fixpoint _list_free_loop (fuel : nat) (list : ptr) : M unit :=
  if decide (list = NULL) then ret tt
  else
    match fuel with
    | O => fail NoReturn
    | S fuel' =>
        let* t := load_list list in
        let* i := load_item (item t) in
        let* _ := emit (LvFreeKey (key i)) in
        let* _ := emit (G2dFree (value i)) in
        let* _ := free_item (item t) in
        let* _ := free_list list in
        _list_free_loop fuel' (next t)
    end.

Definition _list_free (list : ptr) : M unit :=
  let* n := live_nodes in _list_free_loop (S n) list.

Definition _handle_collision (index : nat) (it : ptr) : M unit :=
  let* head := get_overflow_list index in
  if decide (head = NULL) then
    (* head = _list_alloc(); head->item = item;  head->next is not written *)
    let* h := _list_alloc in
    let* _ := store_list_item h it in
    set_overflow_list index h
  else
    let* l := _list_insert head it in
    set_overflow_list index l.

(** Modelled from the spec: the macro [G2D_ASSERT_MSG] of [lv_g2d_utils.h],
    which is not part of the sources at hand; on a false condition the
    reference implementation asserts/logs and returns, which is recorded
    here as an event of the trace. *)
Definition G2D_ASSERT_MSG (cond : bool) (msg : string) : M unit :=
  if cond then ret tt else emit (AssertMsg msg).

Definition table_full_msg : string :=
  "Insert Error: Hash Table is full" ++ String (ascii_of_nat 10) EmptyString.

Definition lv_insert_buf_map (k v : ptr) : M unit :=
  let* it := _map_create_item k v in
  let index := index_of k in
  let* curr_item := get_items index in
  if decide (curr_item = NULL) then
    let* c := get_count in
    let* sz := get_size in
    if decide (c = sz) then
      let* _ := _map_free_item it in
      G2D_ASSERT_MSG false table_full_msg
    else
      let* _ := set_items index it in
      set_count (c + 1)
  else
    let* ci := load_item curr_item in
    if decide (key ci = k) then
      store_item_value curr_item v
    else
      _handle_collision index it.

Definition lv_search_buf_map (k : ptr) : M ptr :=
  let index := index_of k in
  let* it := get_items index in
  let* head := get_overflow_list index in
  if decide (it = NULL) then ret NULL
  else
    let* i := load_item it in
    if decide (key i = k) then ret (value i)
    else if decide (head = NULL) then ret NULL
    else
      (* item = head->item; head = head->next; and nothing is done with them *)
      let* h := load_list head in
      ret NULL.

(** The chain walk of [lv_free_item].  After a node that does not match,
    the source runs [curr = curr->next; prev = curr;], so [prev] and [curr]
    are the same pointer from the second node on. *)
Fixpoint lv_free_item_walk (fuel : nat) (k : ptr) (index : nat)
    (head curr prev : ptr) : M unit :=
  if decide (curr = NULL) then ret tt
  else
    match fuel with
    | O => fail NoReturn
    | S fuel' =>
        let* c := load_list curr in
        let* ci := load_item (item c) in
        if decide (key ci = k) then
          if decide (prev = NULL) then
            (* First element of the chain. *)
            let* _ := _list_free head in
            set_overflow_list index NULL
          else
            (* Somewhere in the chain. *)
            let* _ := store_list_next prev (next c) in
            let* _ := store_list_next curr NULL in
            let* _ := _list_free curr in
            set_overflow_list index head
        else
          lv_free_item_walk fuel' k index head (next c) (next c)
    end.

Definition lv_free_item (k : ptr) : M unit :=
  let index := index_of k in
  let* it := get_items index in
  let* head := get_overflow_list index in
  if decide (it = NULL) then ret tt
  else if decide (head = NULL) then
    let* i := load_item it in
    if decide (key i = k) then
      (* No collision chain, just remove item. *)
      let* _ := set_items index NULL in
      let* _ := _map_free_item it in
      let* c := get_count in
      set_count (c - 1)
    else ret tt
  else
    (* Collision chain exists. *)
    let* i := load_item it in
    if decide (key i = k) then
      (* Remove this item and set the head as the new item. *)
      let* _ := _map_free_item it in
      let node := head in
      let* h := load_list head in
      let head' := next h in
      let* _ := store_list_next node NULL in
      let* n := load_list node in
      let* ni := load_item (item n) in
      let* fresh := _map_create_item (key ni) (value ni) in
      let* _ := set_items index fresh in
      let* _ := _list_free node in
      set_overflow_list index head'
    else
      let* n := live_nodes in
      lv_free_item_walk (S n) k index head head NULL.

Definition lv_create_buf_map : M unit :=
  fun s =>
    let n := Z.to_nat HASH_TABLE_SIZE in
    Done tt (State HASH_TABLE_SIZE 0 (replicate n NULL) (replicate n NULL)
               (item_mem s) (list_mem s) (brk s) (trace s)).

(** [for(int i = 0; i < table->size; i++)] over the primary slots. *)
Fixpoint free_slots (idxs : list nat) : M unit :=
  match idxs with
  | [] => ret tt
  | i :: rest =>
      let* it := get_items i in
      let* _ := (if decide (it = NULL) then ret tt else _map_free_item it) in
      free_slots rest
  end.

Fixpoint free_lists (idxs : list nat) : M unit :=
  match idxs with
  | [] => ret tt
  | i :: rest =>
      let* l := get_overflow_list i in
      let* _ := _list_free l in
      free_lists rest
  end.

Definition _free_overflow_list : M unit :=
  let* sz := get_size in
  let* _ := free_lists (seq 0 (Z.to_nat sz)) in
  fun s => Done tt (with_overflow_list [] s).

Definition lv_free_buf_map : M unit :=
  let* sz := get_size in
  let* _ := free_slots (seq 0 (Z.to_nat sz)) in
  let* _ := _free_overflow_list in
  fun s => Done tt (with_items [] s).

(** *** Runs of the caller API *)

Inductive call :=
| Insert (k v : ptr)
| Search (k : ptr)
| FreeItem (k : ptr).

Definition exec (c : call) : M unit :=
  match c with
  | Insert k v => lv_insert_buf_map k v
  | Search k => let* _ := lv_search_buf_map k in ret tt
  | FreeItem k => lv_free_item k
  end.

Fixpoint run (cs : list call) : M unit :=
  match cs with
  | [] => ret tt
  | c :: rest => let* _ := exec c in run rest
  end.

End BufMap.

(** The state before [lv_create_buf_map]: no table, nothing allocated. *)
Definition boot : state := State 0 0 [] [] empty empty 1%positive [].

(** The states the caller API can reach from a created table. *)
Definition session uninit sprintf_p (cs : list call) : outcome unit :=
  (let* _ := lv_create_buf_map in run uninit sprintf_p cs) boot.

(** ** A concrete platform

    Used to run the functions on explicit inputs: glibc's rendering of
    [%p], and an allocator whose fresh blocks happen to be zeroed (the most
    favourable content an uninitialised [next] field can have). *)

Definition glibc_p (p : ptr) : string :=
  if decide (p = NULL) then "(nil)"%string else HexString.of_Z p.

Definition zeroed (_ : ptr) : lv_list_t := ListNode NULL NULL.

Definition session0 : list call -> outcome unit := session zeroed glibc_p.

(** ** Notions used in the statements *)

(** [keeps f m]: the run of [m], returned or not, stops in a state with the
    [f] it started with. *)
Definition keeps {A X} (f : state -> X) (m : M A) : Prop :=
  forall s, f (final (m s)) = f s.

(** The fields of the [lv_buf_map_t]. *)
Definition table_view (s : state) : Z * Z * list ptr * list ptr :=
  (tsize s, count s, items s, overflow_list s).

Abbreviation keeps_table := (keeps table_view).

(** The number of primary slots that hold an item. *)
Fixpoint occupied (l : list ptr) : Z :=
  match l with
  | [] => 0
  | p :: rest => (if decide (p = NULL) then 0 else 1) + occupied rest
  end.

(** The shape of a created table. *)
Record table_inv (s : state) : Prop := TableInv {
  inv_tsize : tsize s = HASH_TABLE_SIZE;
  inv_items : length (items s) = Z.to_nat HASH_TABLE_SIZE;
  inv_overflow_list : length (overflow_list s) = Z.to_nat HASH_TABLE_SIZE;
  inv_count : count s = occupied (items s);
  inv_guard : forall i, items s !! i = Some NULL ->
                        overflow_list s !! i = Some NULL
}.

(** The state right after [_map_create_item k v]. *)
Definition created (k v : ptr) (s : state) : state :=
  with_brk (Pos.succ (brk s))
    (with_item_mem (<[Z.pos (brk s) := MapItem k v]> (item_mem s)) s).

(** The state after an insert into an empty slot of a table that is not
    full. *)
Definition inserted (sprintf_p : ptr -> string) (k v : ptr) (s : state) : state :=
  with_count (count s + 1)
    (with_items (<[index_of sprintf_p k := Z.pos (brk s)]> (items s))
       (created k v s)).

(** The state after an insert that the full table turned down. *)
Definition rejected (k v : ptr) (s : state) : state :=
  with_trace (trace s ++ [LvFreeKey k; G2dFree v; AssertMsg table_full_msg])
    (with_brk (Pos.succ (brk s)) s).

(** The state after an insert that found its key in the primary slot [p]. *)
Definition updated (k v p : ptr) (s : state) : state :=
  with_item_mem (<[p := MapItem k v]> (item_mem (created k v s)))
    (created k v s).

(** [lv_free_buf_map] after a run of calls on a fresh table. *)
Definition lifetime uninit sprintf_p (cs : list call) : outcome unit :=
  (let* _ := lv_create_buf_map in
   let* _ := run uninit sprintf_p cs in
   lv_free_buf_map) boot.

(** How often a resource was handed to [g2d_free]. *)
Definition releases (v : ptr) (s : state) : nat :=
  count_occ event_eq_dec (trace s) (G2dFree v).

(** ** Concrete inputs

    Four keys that [glibc_p] sends to bucket 18, and one that it sends to
    bucket 19. *)
Definition keyA : ptr := 0x123.
Definition keyB : ptr := 0x132.
Definition keyC : ptr := 0x213.
Definition keyD : ptr := 0x231.
Definition keyZ : ptr := 0x124.

(** A table that holds [keyA] alone. *)
Definition one_key : state := final (session0 [Insert keyA 1001]).

(** A table whose counter says full while every slot is empty. *)
Definition full_table : state :=
  with_count HASH_TABLE_SIZE (final (session0 [])).

(** ** The remaining functions of the file *)

(** [_list_remove], which nothing in the file calls.  [it] is NULL when
    [memcpy(temp->item, it, sizeof(lv_map_item_t))] reads through it. *)
Definition _list_remove (list : ptr) : M ptr :=
  if decide (list = NULL) then ret NULL
  else
    let* l := load_list list in
    if decide (next l = NULL) then ret NULL
    else
      let temp := list in
      let* _ := store_list_next temp NULL in
      let it := NULL in
      let* t := load_list temp in
      let* src := load_item it in
      let* _ := store_item (item t) src in
      let* t' := load_list temp in
      let* i := load_item (item t') in
      let* _ := emit (LvFreeKey (key i)) in
      let* _ := emit (G2dFree (value i)) in
      let* _ := free_item (item t') in
      let* _ := free_list temp in
      ret it.

(** What [print_table] hands to [LV_LOG], line by line. *)
Inductive log_line :=
| LogText (text : string)
| LogSlot (index : nat) (k v : ptr).   (* "Index:%d, Key:%p, Value:%p\n" *)

Definition newline : string := String (ascii_of_nat 10) EmptyString.

Definition table_header : string :=
  newline ++ "Hash Table" ++ newline ++ "-------------------" ++ newline.
Definition table_footer : string :=
  "-------------------" ++ newline ++ newline.

(** [for(int i = 0; i < table->size; i++) if(table->items[i]) LV_LOG(...)] *)
Fixpoint print_slots (idxs : list nat) : M (list log_line) :=
  match idxs with
  | [] => ret []
  | i :: rest =>
      let* it := get_items i in
      let* row := (if decide (it = NULL) then ret []
                   else let* x := load_item it in
                        ret [LogSlot i (key x) (value x)]) in
      let* rows := print_slots rest in
      ret (row ++ rows)
  end.

Definition print_table : M (list log_line) :=
  let* sz := get_size in
  let* rows := print_slots (seq 0 (Z.to_nat sz)) in
  ret (LogText table_header :: rows ++ [LogText table_footer]).

(** ** Notions used in the further properties *)

(** Slot and chain head of bucket [j]. *)
Definition bucket (j : nat) (s : state) : option ptr * option ptr :=
  (items s !! j, overflow_list s !! j).

(** The two heaps and the allocation counter. *)
Definition heap_view (s : state)
  : gmap Z lv_map_item_t * gmap Z lv_list_t * positive :=
  (item_mem s, list_mem s, brk s).

(** Every list node of [s'] is a node of [s] with the item it had. *)
Definition nodes_kept (s s' : state) : Prop :=
  forall a n', list_mem s' !! a = Some n' ->
    exists n, list_mem s !! a = Some n /\ item n' = item n.

(** An item of [s] is still allocated in [s'] unless a list node of [s]
    pointed to it. *)
Definition items_kept (s s' : state) : Prop :=
  forall p, is_Some (item_mem s !! p) ->
    is_Some (item_mem s' !! p) \/
    exists a n, list_mem s !! a = Some n /\ item n = p.

(** What releasing list nodes does to the heaps. *)
Definition heap_shrinks (s s' : state) : Prop :=
  brk s' = brk s /\ nodes_kept s s' /\ items_kept s s'.

(** Every list node of [s'] is a node of [s] with the item it had, or
    points to the item [it]. *)
Definition nodes_plus (it : ptr) (s s' : state) : Prop :=
  forall a n', list_mem s' !! a = Some n' ->
    (exists n, list_mem s !! a = Some n /\ item n' = item n) \/ item n' = it.

(** What chaining the item [it] does to the heaps. *)
Definition heap_grows (it : ptr) (s s' : state) : Prop :=
  item_mem s' = item_mem s /\ brk s' = Pos.succ (brk s) /\ nodes_plus it s s'.

(** The primary slots point to allocated items, no two of them to the same
    one, and no list node shares its item with a slot. *)
Record heap_inv (s : state) : Prop := HeapInv {
  hi_live : forall i p, items s !! i = Some p -> p <> NULL ->
              is_Some (item_mem s !! p);
  hi_inj : forall i j p, items s !! i = Some p -> items s !! j = Some p ->
              p <> NULL -> i = j;
  hi_slots_old : forall i p, items s !! i = Some p -> p < Z.pos (brk s);
  hi_nodes_old : forall a n, list_mem s !! a = Some n ->
              item n < Z.pos (brk s);
  hi_apart : forall a n i, list_mem s !! a = Some n ->
              items s !! i = Some (item n) -> item n = NULL
}.

(** The state after the removal of the item [p = (k, v)] from the slot of a
    bucket without chain. *)
Definition removed (sprintf_p : ptr -> string) (k v p : ptr) (s : state) : state :=
  with_count (count s - 1)
    (with_item_mem (delete p (item_mem s))
       (with_trace (trace s ++ [LvFreeKey k; G2dFree v])
          (with_items (<[index_of sprintf_p k := NULL]> (items s)) s))).

(** The state after the insert of [(k, v)] into a bucket whose slot holds
    another key and whose chain is empty: the item is allocated first, the
    chain head second, and the [next] field of the head keeps the content
    the allocator left there. *)
Definition chained uninit (sprintf_p : ptr -> string) (k v : ptr) (s : state) : state :=
  let it := Z.pos (brk s) in
  let head := Z.pos (Pos.succ (brk s)) in
  with_overflow_list (<[index_of sprintf_p k := head]> (overflow_list s))
    (with_list_mem (<[head := ListNode it (next (uninit head))]> (list_mem s))
       (with_brk (Pos.succ (Pos.succ (brk s))) (created k v s))).

(** The state after the removal of the primary key [k] of a bucket whose
    chain starts with the node [h]: [p = (k, v)] is the item of the slot,
    [hi = (k2, v2)] the item of the chain head and [nx] the head's
    successor. *)
Definition promoted (sprintf_p : ptr -> string) (k v p h hi k2 v2 nx : ptr)
    (s : state) : state :=
  State (tsize s) (count s)
    (<[index_of sprintf_p k := Z.pos (brk s)]> (items s))
    (<[index_of sprintf_p k := nx]> (overflow_list s))
    (delete hi (<[Z.pos (brk s) := MapItem k2 v2]> (delete p (item_mem s))))
    (delete h (list_mem s))
    (Pos.succ (brk s))
    (trace s ++ [LvFreeKey k; G2dFree v; LvFreeKey k2; G2dFree v2]).

(** The releases that the item behind [p] asks for. *)
Definition release_of (m : gmap Z lv_map_item_t) (p : ptr) : list event :=
  match cell m p with
  | Some it => [LvFreeKey (key it); G2dFree (value it)]
  | None => []
  end.

(** The releases of the primary slots, in slot order. *)
Definition slot_releases (s : state) : list event :=
  flat_map (release_of (item_mem s)) (items s).

(** [chain m p l]: following [next] from [p] in the heap [m] visits the
    nodes of [l], given as pairs of the node's address and its item, and
    ends at NULL. *)
Fixpoint chain (m : gmap Z lv_list_t) (p : ptr) (l : list (ptr * ptr)) : Prop :=
  match l with
  | [] => p = NULL
  | (a, it) :: rest =>
      p = a /\ a <> NULL /\
      exists nx, m !! a = Some (ListNode it nx) /\ chain m nx rest
  end.

(** The state after [_list_insert] has linked a fresh node for [it] behind
    the node [a] that holds the item [i]. *)
Definition linked (a i it : ptr) (s : state) : state :=
  with_list_mem
    (<[a := ListNode i (Z.pos (brk s))]>
       (<[Z.pos (brk s) := ListNode it NULL]> (list_mem s)))
    (with_brk (Pos.succ (brk s)) s).

(** The sum of the character codes of a text. *)
Definition code_sum (l : list ascii) : Z :=
  fold_right (fun c acc => Z.of_nat (nat_of_ascii c) + acc) 0 l.

(** Tables on the concrete platform: a slot with a chain of one node, a
    slot with a chain of two, and two slots without chains. *)
Definition two_keys : state :=
  final (session0 [Insert keyA 1001; Insert keyB 1002]).
Definition three_keys : state :=
  final (session0 [Insert keyA 1001; Insert keyB 1002; Insert keyC 1003]).
Definition flat_calls : list call := [Insert keyA 1001; Insert keyZ 1002].
Definition flat_table : state := final (session0 flat_calls).

(** * Reasoning about runs *)

Lemma bind_Done {A B} (m : M A) (k : A -> M B) s b s' :
  bind m k s = Done b s' ->
  exists a s1, m s = Done a s1 /\ k a s1 = Done b s'.
Proof.
  unfold bind. destruct (m s) as [a s1|w s1]; [eauto | discriminate].
Qed.

Lemma cell_Some {A} (m : gmap Z A) p x :
  cell m p = Some x -> p <> NULL /\ m !! p = Some x.
Proof. unfold cell. destruct (decide (p = NULL)); [discriminate | auto]. Qed.

Lemma cell_lookup {A} (m : gmap Z A) p :
  p <> NULL -> cell m p = m !! p.
Proof. unfold cell. destruct (decide (p = NULL)); [contradiction | auto]. Qed.

(** ** Functions that leave the table structure alone *)

Section Keeps.
Context {X : Type} (f : state -> X).

Lemma keeps_ret {A} (a : A) : keeps f (ret a).
Proof. intros s. reflexivity. Qed.

Lemma keeps_fail {A} w : keeps f (@fail A w).
Proof. intros s. reflexivity. Qed.

Lemma keeps_bind {A B} (m : M A) (k : A -> M B) :
  keeps f m -> (forall a, keeps f (k a)) -> keeps f (bind m k).
Proof.
  intros Hm Hk s. unfold bind. specialize (Hm s).
  destruct (m s) as [a s1|w s1]; simpl in *; [|exact Hm].
  rewrite <- Hm. apply Hk.
Qed.

Lemma keeps_Done {A} (m : M A) s a s' :
  keeps f m -> m s = Done a s' -> f s' = f s.
Proof. intros Hm E. specialize (Hm s). rewrite E in Hm. exact Hm. Qed.

End Keeps.

Lemma keeps_table_tsize {A} (m : M A) : keeps_table m -> keeps tsize m.
Proof. intros H s. specialize (H s). unfold table_view in H. congruence. Qed.

Lemma keeps_table_count {A} (m : M A) : keeps_table m -> keeps count m.
Proof. intros H s. specialize (H s). unfold table_view in H. congruence. Qed.

Lemma keeps_table_items {A} (m : M A) : keeps_table m -> keeps items m.
Proof. intros H s. specialize (H s). unfold table_view in H. congruence. Qed.

Lemma keeps_table_overflow_list {A} (m : M A) :
  keeps_table m -> keeps overflow_list m.
Proof. intros H s. specialize (H s). unfold table_view in H. congruence. Qed.

Lemma keeps_emit e : keeps_table (emit e).
Proof. intros s. reflexivity. Qed.

Lemma keeps_load_item p : keeps_table (load_item p).
Proof. intros s. unfold load_item. destruct (cell _ _); reflexivity. Qed.

Lemma keeps_store_item p i : keeps_table (store_item p i).
Proof. intros s. unfold store_item. destruct (cell _ _); reflexivity. Qed.

Lemma keeps_free_item p : keeps_table (free_item p).
Proof. intros s. unfold free_item. destruct (cell _ _); reflexivity. Qed.

Lemma keeps_load_list p : keeps_table (load_list p).
Proof. intros s. unfold load_list. destruct (cell _ _); reflexivity. Qed.

Lemma keeps_store_list p n : keeps_table (store_list p n).
Proof. intros s. unfold store_list. destruct (cell _ _); reflexivity. Qed.

Lemma keeps_free_list p : keeps_table (free_list p).
Proof. intros s. unfold free_list. destruct (cell _ _); reflexivity. Qed.

Lemma keeps_live_nodes : keeps_table live_nodes.
Proof. intros s. reflexivity. Qed.

Lemma keeps_get_count : keeps_table get_count.
Proof. intros s. reflexivity. Qed.

Lemma keeps_get_size : keeps_table get_size.
Proof. intros s. reflexivity. Qed.

Lemma keeps_get_items i : keeps_table (get_items i).
Proof. intros s. unfold get_items. destruct (_ !! _); reflexivity. Qed.

Lemma keeps_get_overflow_list i : keeps_table (get_overflow_list i).
Proof.
  intros s. unfold get_overflow_list. destruct (_ !! _); reflexivity.
Qed.

Lemma keeps_map_create_item k v : keeps_table (_map_create_item k v).
Proof. intros s. reflexivity. Qed.

Lemma keeps_list_alloc uninit : keeps_table (_list_alloc uninit).
Proof. intros s. reflexivity. Qed.

Create HintDb keeps.
#[export] Hint Resolve keeps_table_tsize keeps_table_count keeps_table_items
  keeps_table_overflow_list | 10 : keeps.
#[export] Hint Resolve keeps_ret keeps_fail keeps_emit keeps_load_item
  keeps_store_item keeps_free_item keeps_load_list keeps_store_list
  keeps_free_list keeps_live_nodes keeps_get_count keeps_get_size
  keeps_get_items keeps_get_overflow_list keeps_map_create_item
  keeps_list_alloc : keeps.

(** Splits a monadic body along its binds and its tests. *)
Ltac keeps_step :=
  match goal with
  | |- keeps _ (bind _ _) => apply keeps_bind; [|intros ?]
  | |- keeps _ (if ?c then _ else _) => destruct c
  | |- keeps _ _ => solve [eauto with keeps]
  end.
Ltac keeps := repeat keeps_step.

Lemma keeps_store_item_value p v : keeps_table (store_item_value p v).
Proof. unfold store_item_value. keeps. Qed.

Lemma keeps_store_list_item p v : keeps_table (store_list_item p v).
Proof. unfold store_list_item. keeps. Qed.

Lemma keeps_store_list_next p v : keeps_table (store_list_next p v).
Proof. unfold store_list_next. keeps. Qed.

#[export] Hint Resolve keeps_store_item_value keeps_store_list_item
  keeps_store_list_next : keeps.

Lemma keeps_map_free_item p : keeps_table (_map_free_item p).
Proof. unfold _map_free_item. keeps. Qed.

Lemma keeps_new_node uninit it : keeps_table (new_node uninit it).
Proof. unfold new_node. keeps. Qed.

#[export] Hint Resolve keeps_map_free_item keeps_new_node : keeps.

Lemma keeps_list_insert_seek fuel : forall temp,
  keeps_table (_list_insert_seek fuel temp).
Proof.
  induction fuel as [|fuel IH]; intros temp; simpl; keeps.
Qed.

#[export] Hint Resolve keeps_list_insert_seek : keeps.

Lemma keeps_list_insert uninit list it :
  keeps_table (_list_insert uninit list it).
Proof. unfold _list_insert. keeps. Qed.

Lemma keeps_list_free_loop fuel : forall list,
  keeps_table (_list_free_loop fuel list).
Proof.
  induction fuel as [|fuel IH]; intros list; simpl; keeps.
Qed.

#[export] Hint Resolve keeps_list_insert keeps_list_free_loop : keeps.

Lemma keeps_list_free list : keeps_table (_list_free list).
Proof. unfold _list_free. keeps. Qed.

#[export] Hint Resolve keeps_list_free : keeps.

Lemma keeps_search sprintf_p k : keeps_table (lv_search_buf_map sprintf_p k).
Proof. unfold lv_search_buf_map. keeps. Qed.


(** ** The table primitives, inverted *)

Lemma get_items_Done i s p s' :
  get_items i s = Done p s' -> s' = s /\ items s !! i = Some p.
Proof.
  unfold get_items. destruct (items s !! i); intros E; inversion E; auto.
Qed.

Lemma set_items_Done i p s u s' :
  set_items i p s = Done u s' -> s' = with_items (<[i := p]> (items s)) s.
Proof.
  unfold set_items. destruct (items s !! i); intros E; inversion E; auto.
Qed.

Lemma get_overflow_list_Done i s p s' :
  get_overflow_list i s = Done p s' -> s' = s /\ overflow_list s !! i = Some p.
Proof.
  unfold get_overflow_list.
  destruct (overflow_list s !! i); intros E; inversion E; auto.
Qed.

Lemma set_overflow_list_Done i p s u s' :
  set_overflow_list i p s = Done u s' ->
  s' = with_overflow_list (<[i := p]> (overflow_list s)) s.
Proof.
  unfold set_overflow_list.
  destruct (overflow_list s !! i); intros E; inversion E; auto.
Qed.

Lemma load_item_Done p s i s' :
  load_item p s = Done i s' ->
  s' = s /\ p <> NULL /\ item_mem s !! p = Some i.
Proof.
  unfold load_item. destruct (cell _ _) eqn:C; intros E; inversion E; subst.
  apply cell_Some in C. tauto.
Qed.

Lemma load_list_Done p s n s' :
  load_list p s = Done n s' ->
  s' = s /\ p <> NULL /\ list_mem s !! p = Some n.
Proof.
  unfold load_list. destruct (cell _ _) eqn:C; intros E; inversion E; subst.
  apply cell_Some in C. tauto.
Qed.

(** Writes into one array leave the other fields alone. *)
Lemma keeps_count_set_items i p : keeps count (set_items i p).
Proof. intros s. unfold set_items. destruct (_ !! _); reflexivity. Qed.

Lemma keeps_count_set_overflow_list i p : keeps count (set_overflow_list i p).
Proof. intros s. unfold set_overflow_list. destruct (_ !! _); reflexivity. Qed.

Lemma keeps_items_set_overflow_list i p : keeps items (set_overflow_list i p).
Proof. intros s. unfold set_overflow_list. destruct (_ !! _); reflexivity. Qed.

Lemma keeps_tsize_set_items i p : keeps tsize (set_items i p).
Proof. intros s. unfold set_items. destruct (_ !! _); reflexivity. Qed.

Lemma keeps_tsize_set_overflow_list i p : keeps tsize (set_overflow_list i p).
Proof. intros s. unfold set_overflow_list. destruct (_ !! _); reflexivity. Qed.

Lemma keeps_tsize_set_count c : keeps tsize (set_count c).
Proof. intros s. reflexivity. Qed.

#[export] Hint Resolve keeps_count_set_items keeps_count_set_overflow_list
  keeps_items_set_overflow_list keeps_tsize_set_items
  keeps_tsize_set_overflow_list keeps_tsize_set_count : keeps.

Lemma keeps_count_handle_collision uninit i it :
  keeps count (_handle_collision uninit i it).
Proof. unfold _handle_collision. keeps. Qed.

Lemma keeps_items_handle_collision uninit i it :
  keeps items (_handle_collision uninit i it).
Proof. unfold _handle_collision. keeps. Qed.

Lemma keeps_tsize_handle_collision uninit i it :
  keeps tsize (_handle_collision uninit i it).
Proof. unfold _handle_collision. keeps. Qed.

#[export] Hint Resolve keeps_count_handle_collision
  keeps_items_handle_collision keeps_tsize_handle_collision : keeps.

Lemma keeps_walk {X} (f : state -> X) fuel k i :
  (forall p, keeps f (set_overflow_list i p)) ->
  (forall A (m : M A), keeps_table m -> keeps f m) ->
  forall head curr prev, keeps f (lv_free_item_walk fuel k i head curr prev).
Proof.
  intros Hset Htab.
  induction fuel as [|fuel IH]; intros head curr prev; simpl;
    repeat first [ apply Hset | keeps_step | apply Htab; solve [eauto with keeps] ].
Qed.

Lemma keeps_tsize_insert uninit sprintf_p k v :
  keeps tsize (lv_insert_buf_map uninit sprintf_p k v).
Proof. unfold lv_insert_buf_map, G2D_ASSERT_MSG. keeps. Qed.

Lemma keeps_tsize_free_item sprintf_p k :
  keeps tsize (lv_free_item sprintf_p k).
Proof.
  unfold lv_free_item. keeps.
  apply keeps_walk; eauto with keeps.
Qed.

(** ** What a returned call did to the table *)

(** Names the pieces of a returned [bind]. *)
Ltac inv_bind H :=
  let a := fresh "a" in
  let s1 := fresh "s" in
  let E := fresh "E" in
  apply bind_Done in H as (a & s1 & E & H).

(** The table fields across a returned call that does not touch them. *)
Ltac frame_with f E :=
  match type of E with
  | ?m _ = Done _ _ =>
      let K := fresh "K" in
      assert (K : keeps f m) by eauto with keeps;
      apply (fun K' => keeps_Done f m _ _ _ K' E) in K
  end.
Ltac frame E :=
  match type of E with
  | ?m _ = Done _ _ =>
      let K := fresh "K" in
      assert (K : keeps table_view m) by eauto with keeps;
      apply (fun K' => keeps_Done table_view m _ _ _ K' E) in K;
      unfold table_view in K; injection K as ? ? ? ?
  end.

Lemma handle_collision_Done uninit i it s s' :
  _handle_collision uninit i it s = Done tt s' ->
  exists h, overflow_list s' = <[i := h]> (overflow_list s).
Proof.
  unfold _handle_collision. intros H.
  inv_bind H. apply get_overflow_list_Done in E as [-> Hh].
  destruct (decide (a = NULL)).
  - inv_bind H. inv_bind H. frame E. frame E0.
    apply set_overflow_list_Done in H. subst s'. simpl.
    exists a0. congruence.
  - inv_bind H. frame E.
    apply set_overflow_list_Done in H. subst s'. simpl.
    exists a0. congruence.
Qed.

Section Effects.
Variable uninit : ptr -> lv_list_t.
Variable sprintf_p : ptr -> string.
Local Abbreviation index_of := (index_of sprintf_p).

Lemma insert_Done k v s s' :
  lv_insert_buf_map uninit sprintf_p k v s = Done tt s' ->
  exists p, items s !! index_of k = Some p /\
    ((p = NULL /\ count s = tsize s /\ count s' = count s /\
      items s' = items s /\ overflow_list s' = overflow_list s) \/
     (p = NULL /\ count s <> tsize s /\ count s' = count s + 1 /\
      items s' = <[index_of k := Z.pos (brk s)]> (items s) /\
      overflow_list s' = overflow_list s) \/
     (p <> NULL /\ count s' = count s /\ items s' = items s /\
      (overflow_list s' = overflow_list s \/
       exists h, overflow_list s' = <[index_of k := h]> (overflow_list s)))).
Proof.
  unfold lv_insert_buf_map. intros H.
  inv_bind H. unfold _map_create_item in E. inversion E; subst a s0; clear E.
  inv_bind H. apply get_items_Done in E as [-> Hp]. simpl in Hp.
  exists a. split; [exact Hp|].
  destruct (decide (a = NULL)) as [Ha|Ha].
  - inv_bind H. inversion E; subst a0 s0; clear E.
    inv_bind H. inversion E; subst a0 s0; clear E. simpl in H.
    destruct (decide (count s = tsize s)) as [Hc|Hc].
    + left. inv_bind H. frame E. frame H. simpl in *. repeat split; congruence.
    + right; left. inv_bind H. apply set_items_Done in E. subst s0.
      inversion H; subst s'. simpl. auto.
  - right; right. inv_bind H. 
    destruct (decide (key a0 = k)).
    + frame E. frame H. simpl in *. repeat split; try congruence. left; congruence.
    + frame E. simpl in *.
      pose proof H as H'. frame_with count H'.
      pose proof H as H''. frame_with items H''.
      apply handle_collision_Done in H as [h Hh].
      repeat split; try congruence. right. exists h. congruence.
Qed.
Lemma walk_Done fuel k i : forall head curr prev s s',
  lv_free_item_walk fuel k i head curr prev s = Done tt s' ->
  overflow_list s' = overflow_list s \/
  exists h, overflow_list s' = <[i := h]> (overflow_list s).
Proof.
  induction fuel as [|fuel IH]; intros head curr prev s s' H; simpl in H.
  - destruct (decide (curr = NULL)); inversion H; auto.
  - destruct (decide (curr = NULL)); [inversion H; auto|].
    inv_bind H. frame E. inv_bind H. frame E0.
    destruct (decide (key a0 = k)).
    + right. destruct (decide (prev = NULL)).
      * inv_bind H. frame E1.
        apply set_overflow_list_Done in H. subst s'. simpl.
        exists NULL. congruence.
      * inv_bind H. frame E1. inv_bind H. frame E2. inv_bind H. frame E3.
        apply set_overflow_list_Done in H. subst s'. simpl.
        exists head. congruence.
    + apply IH in H. destruct H as [H|[h H]]; [left|right; exists h]; congruence.
Qed.

Lemma free_item_Done k s s' :
  lv_free_item sprintf_p k s = Done tt s' ->
  exists p h, items s !! index_of k = Some p /\
    overflow_list s !! index_of k = Some h /\
    (table_view s' = table_view s \/
     (p <> NULL /\ h = NULL /\ count s' = count s - 1 /\
      items s' = <[index_of k := NULL]> (items s) /\
      overflow_list s' = overflow_list s) \/
     (p <> NULL /\ h <> NULL /\ count s' = count s /\
      (exists q, q <> NULL /\ items s' = <[index_of k := q]> (items s)) /\
      exists h', overflow_list s' = <[index_of k := h']> (overflow_list s))).
Proof.
  unfold lv_free_item. intros H.
  inv_bind H. apply get_items_Done in E as [-> Hp].
  inv_bind H. apply get_overflow_list_Done in E as [-> Hh].
  exists a, a0. split; [exact Hp|]. split; [exact Hh|].
  destruct (decide (a = NULL)) as [Ha|Ha].
  { left. inversion H. reflexivity. }
  destruct (decide (a0 = NULL)) as [Hn|Hn].
  - inv_bind H. frame E.
    destruct (decide (key a1 = k)).
    + right; left. inv_bind H. apply set_items_Done in E0. subst s1.
      inv_bind H. frame E0. inv_bind H. inversion E1; subst a4 s2; clear E1.
      inversion H; subst s'. simpl in *. repeat split; congruence.
    + left. inversion H; subst s'. unfold table_view. congruence.
  - inv_bind H. frame E.
    destruct (decide (key a1 = k)).
    + right; right. inv_bind H. frame E0. inv_bind H. frame E1.
      inv_bind H. frame E2. inv_bind H. frame E3. inv_bind H. frame E4.
      inv_bind H. frame E5.
      assert (a7 <> NULL) by (inversion E5; discriminate).
      inv_bind H. apply set_items_Done in E6. subst s7.
      inv_bind H. frame E6.
      apply set_overflow_list_Done in H. subst s'. simpl in *.
      repeat split; try congruence.
      * exists a7. split; [assumption | congruence].
      * exists (next a3). congruence.
    + right; right. inv_bind H. inversion E0; subst a2 s1; clear E0.
      pose proof H as Kc. pose proof H as Ki.
      apply (keeps_Done count) in Kc;
        [|apply keeps_walk; eauto with keeps].
      apply (keeps_Done items) in Ki;
        [|apply keeps_walk; eauto with keeps].
      apply walk_Done in H.
      repeat split; try congruence.
      * exists a. split; [assumption|].
        rewrite Ki, H2. symmetry. apply list_insert_id. congruence.
      * destruct H as [H|[h H]].
        -- exists a0. rewrite H, H3. symmetry. apply list_insert_id. congruence.
        -- exists h. congruence.
Qed.
End Effects.

(** ** Occupied slots *)

Lemma occupied_bounds l : 0 <= occupied l <= Z.of_nat (length l).
Proof.
  induction l as [|p l IH]; simpl; [lia|].
  destruct (decide (p = NULL)); lia.
Qed.

Lemma occupied_insert l : forall i p q,
  l !! i = Some p ->
  occupied (<[i := q]> l) =
  occupied l - (if decide (p = NULL) then 0 else 1)
             + (if decide (q = NULL) then 0 else 1).
Proof.
  induction l as [|x l IH]; intros [|i] p q H; simpl in *; try discriminate.
  - injection H as ->. lia.
  - rewrite (IH i p q H). lia.
Qed.

Lemma occupied_empty_slot l i :
  l !! i = Some NULL -> occupied l < Z.of_nat (length l).
Proof.
  revert i. induction l as [|x l IH]; intros [|i] H; simpl in *; try discriminate.
  - injection H as ->. pose proof (occupied_bounds l).
    destruct (decide (NULL = NULL)); [lia | contradiction].
  - specialize (IH i H). destruct (decide (x = NULL)); lia.
Qed.

Lemma occupied_replicate n : occupied (replicate n NULL) = 0.
Proof. induction n as [|n IH]; simpl; [reflexivity|]. rewrite IH. reflexivity. Qed.

(** ** The table invariant *)

Lemma table_inv_view s s' :
  table_view s' = table_view s -> table_inv s -> table_inv s'.
Proof.
  unfold table_view. intros E [H1 H2 H3 H4 H5]. injection E as E1 E2 E3 E4.
  constructor; try congruence. rewrite E3, E4. assumption.
Qed.

Lemma create_inv s u s' : lv_create_buf_map s = Done u s' -> table_inv s'.
Proof.
  unfold lv_create_buf_map. intros E. inversion E; subst. clear E.
  constructor; cbn [tsize count items overflow_list];
    try reflexivity.
  intros i H. exact H.
Qed.

Section Invariant.
Variable uninit : ptr -> lv_list_t.
Variable sprintf_p : ptr -> string.
Local Abbreviation index_of := (index_of sprintf_p).

(** A bucket whose slot stays or becomes occupied may hold any chain. *)
Lemma guard_insert (its ovs : list ptr) (i : nat) (q h : ptr) :
  (forall j, its !! j = Some NULL -> ovs !! j = Some NULL) ->
  q <> NULL -> (i < length its)%nat ->
  forall j, <[i := q]> its !! j = Some NULL -> <[i := h]> ovs !! j = Some NULL.
Proof.
  intros G Hq Hi j H. destruct (decide (i = j)) as [<-|Hne].
  - rewrite list_lookup_insert_eq in H by assumption. congruence.
  - rewrite list_lookup_insert_ne in H by assumption.
    rewrite list_lookup_insert_ne by assumption. auto.
Qed.

Lemma insert_inv k v s s' :
  table_inv s ->
  lv_insert_buf_map uninit sprintf_p k v s = Done tt s' ->
  table_inv s'.
Proof.
  intros [I1 I2 I3 I4 I5] H.
  pose proof (keeps_Done tsize _ _ _ _ (keeps_tsize_insert _ _ _ _) H) as T.
  apply insert_Done in H as (p & Hp & H).
  pose proof (lookup_lt_Some _ _ _ Hp) as Hi.
  destruct H as [(-> & ? & Hc & Hit & Hov) | [(-> & ? & Hc & Hit & Hov) | (Hn & Hc & Hit & Hov)]].
  - constructor; try congruence. rewrite Hit, Hov. assumption.
  - constructor; try congruence.
    + rewrite Hit, length_insert. assumption.
    + rewrite Hc, Hit, (occupied_insert _ _ NULL _ Hp), I4.
      repeat case_decide; try lia; try discriminate; congruence.
    + rewrite Hit, Hov, <- (list_insert_id (overflow_list s) (index_of k) NULL) by auto.
      apply guard_insert; [assumption | discriminate | assumption].
  - constructor; try congruence.
    + destruct Hov as [Hov|[h Hov]]; rewrite Hov; [|rewrite length_insert]; assumption.
    + rewrite Hit. destruct Hov as [Hov|[h Hov]]; rewrite Hov; [assumption|].
      rewrite <- (list_insert_id (items s) (index_of k) p) by assumption.
      apply guard_insert; assumption.
Qed.

Lemma free_item_inv k s s' :
  table_inv s ->
  lv_free_item sprintf_p k s = Done tt s' ->
  table_inv s'.
Proof.
  intros I H.
  pose proof (keeps_Done tsize _ _ _ _ (keeps_tsize_free_item _ _) H) as T.
  apply free_item_Done in H as (p & h & Hp & Hh & H).
  destruct H as [H | [(Hn & -> & Hc & Hit & Hov) | (Hn & Hhn & Hc & (q & Hq & Hit) & (h' & Hov))]].
  - eapply table_inv_view; eassumption.
  - destruct I as [I1 I2 I3 I4 I5]. constructor; try congruence.
    + rewrite Hit, length_insert. assumption.
    + rewrite Hc, Hit, (occupied_insert _ _ p _ Hp), I4.
      repeat case_decide; try lia; try discriminate; congruence.
    + rewrite Hit, Hov. intros j Hj.
      destruct (decide (index_of k = j)) as [<-|Hne]; [assumption|].
      rewrite list_lookup_insert_ne in Hj by assumption. auto.
  - destruct I as [I1 I2 I3 I4 I5].
    pose proof (lookup_lt_Some _ _ _ Hp) as Hi.
    constructor; try congruence.
    + rewrite Hit, length_insert. assumption.
    + rewrite Hov, length_insert. assumption.
    + rewrite Hc, Hit, (occupied_insert _ _ p _ Hp), I4.
      repeat case_decide; try lia; try discriminate; congruence.
    + rewrite Hit, Hov. apply guard_insert; assumption.
Qed.

Lemma exec_inv c s s' :
  table_inv s -> exec uninit sprintf_p c s = Done tt s' -> table_inv s'.
Proof.
  intros I H. destruct c as [k v|k|k]; simpl in H.
  - eapply insert_inv; eassumption.
  - inv_bind H. inversion H; subst s0.
    apply (keeps_Done table_view) in E; [|apply keeps_search].
    eapply table_inv_view; eassumption.
  - eapply free_item_inv; eassumption.
Qed.

Lemma run_inv cs : forall s s',
  table_inv s -> run uninit sprintf_p cs s = Done tt s' -> table_inv s'.
Proof.
  induction cs as [|c cs IH]; intros s s' I H; simpl in H.
  - inversion H; subst. assumption.
  - inv_bind H. destruct a. eapply IH; [|eassumption].
    eapply exec_inv; eassumption.
Qed.

Lemma session_inv cs s :
  session uninit sprintf_p cs = Done tt s -> table_inv s.
Proof.
  unfold session. intros H. inv_bind H.
  eapply run_inv; [|eassumption]. eapply create_inv; eassumption.
Qed.

End Invariant.

Lemma index_of_lt sprintf_p k :
  (index_of sprintf_p k < Z.to_nat HASH_TABLE_SIZE)%nat.
Proof.
  unfold index_of, _map_hash_function, HASH_TABLE_SIZE.
  pose proof (Z.mod_pos_bound (sum_chars (sprintf_p k) 0) 50 ltac:(lia)). lia.
Qed.

(** Reduces the field updates and field reads of a state. *)
Ltac st_simpl :=
  cbv [with_count with_items with_overflow_list with_item_mem with_list_mem
       with_brk with_trace];
  cbn [tsize count items overflow_list item_mem list_mem brk trace key value
       item next].

Section Claims.
Variable uninit : ptr -> lv_list_t.
Variable sprintf_p : ptr -> string.
Local Abbreviation index_of := (index_of sprintf_p).
Local Abbreviation inserted := (inserted sprintf_p).

Lemma insert_empty_slot k v s :
  items s !! index_of k = Some NULL ->
  count s <> tsize s ->
  lv_insert_buf_map uninit sprintf_p k v s = Done tt (inserted k v s).
Proof.
  intros Hp Hc. unfold lv_insert_buf_map, bind, _map_create_item, get_items.
  cbn [items with_brk with_item_mem]. rewrite Hp.
  destruct (decide (NULL = NULL)); [|contradiction].
  unfold get_count, get_size. cbn [count tsize with_brk with_item_mem].
  destruct (decide (count s = tsize s)); [contradiction|].
  unfold set_items. cbn [items with_brk with_item_mem]. rewrite Hp. reflexivity.
Qed.

Lemma search_primary k v s p :
  items s !! index_of k = Some p ->
  is_Some (overflow_list s !! index_of k) ->
  cell (item_mem s) p = Some (MapItem k v) ->
  lv_search_buf_map sprintf_p k s = Done v s.
Proof.
  intros Hp [h Hh] Hc.
  unfold lv_search_buf_map, bind, get_items, get_overflow_list.
  rewrite Hp, Hh.
  destruct (decide (p = NULL)) as [->|Hn]; [discriminate Hc|].
  unfold load_item. rewrite Hc. simpl.
  destruct (decide (k = k)); [reflexivity | contradiction].
Qed.

Lemma insert_occupied_slot k v s p :
  items s !! index_of k = Some p -> p <> NULL ->
  lv_insert_buf_map uninit sprintf_p k v s =
  (let* ci := load_item p in
   if decide (key ci = k) then store_item_value p v
   else _handle_collision uninit (index_of k) (Z.pos (brk s))) (created k v s).
Proof.
  intros Hp Hn.
  unfold lv_insert_buf_map, _map_create_item, get_items.
  unfold bind at 1 2. cbn [items with_brk with_item_mem]. rewrite Hp.
  destruct (decide (p = NULL)); [contradiction | reflexivity].
Qed.

Lemma insert_full_table k v s :
  items s !! index_of k = Some NULL -> count s = tsize s ->
  lv_insert_buf_map uninit sprintf_p k v s =
  (let* _ := _map_free_item (Z.pos (brk s)) in
   G2D_ASSERT_MSG false table_full_msg) (created k v s).
Proof.
  intros Hp Hc.
  unfold lv_insert_buf_map, _map_create_item, get_items, get_count, get_size.
  unfold bind at 1 2 3 4. cbn [items count tsize with_brk with_item_mem]. rewrite Hp.
  destruct (decide (NULL = NULL)); [|contradiction].
  cbn [count tsize with_brk with_item_mem].
  destruct (decide (count s = tsize s)); [reflexivity | contradiction].
Qed.

Lemma insert_no_slot k v s :
  items s !! index_of k = None ->
  lv_insert_buf_map uninit sprintf_p k v s = Abort BadAccess (created k v s).
Proof.
  intros Hp.
  unfold lv_insert_buf_map, _map_create_item, get_items.
  unfold bind at 1 2. cbn [items with_brk with_item_mem]. rewrite Hp.
  reflexivity.
Qed.

(** C6: an insert that finds its primary slot empty while [count] equals
    the table size returns without inserting: the key and the resource of
    the offered entry are released, the table-full assertion is raised, and
    the table fields, the stored items and the chains are what they were. *)
Theorem C6_full_table_rejects_insert k v s :
  items s !! index_of k = Some NULL ->
  count s = tsize s ->
  item_mem s !! Z.pos (brk s) = None ->
  lv_insert_buf_map uninit sprintf_p k v s = Done tt (rejected k v s) /\
  trace (rejected k v s) =
    trace s ++ [LvFreeKey k; G2dFree v; AssertMsg table_full_msg] /\
  table_view (rejected k v s) = table_view s /\
  item_mem (rejected k v s) = item_mem s /\
  list_mem (rejected k v s) = list_mem s.
Proof.
  intros Hp Hc Hfresh. split; [|repeat split].
  rewrite insert_full_table by assumption.
  unfold _map_free_item, load_item, free_item, emit, G2D_ASSERT_MSG,
    created, rejected, bind. st_simpl.
  rewrite cell_lookup by discriminate. rewrite lookup_insert_eq. st_simpl.
  rewrite cell_lookup by discriminate. rewrite lookup_insert_eq. st_simpl.
  rewrite delete_insert_eq, delete_id by assumption.
  unfold emit. st_simpl. rewrite <- !app_assoc. reflexivity.
Qed.

(** C9: an insert whose key is the key of the item in the primary slot
    stores the new resource in that item and returns; nothing is released
    (the trace is unchanged, so the old resource is not freed), and [count],
    the slots and the overflow chains are untouched. *)
Theorem C9_same_key_updates_in_place k v s p old :
  items s !! index_of k = Some p ->
  p <> NULL ->
  item_mem s !! p = Some (MapItem k old) ->
  item_mem s !! Z.pos (brk s) = None ->
  lv_insert_buf_map uninit sprintf_p k v s = Done tt (updated k v p s) /\
  item_mem (updated k v p s) !! p = Some (MapItem k v) /\
  trace (updated k v p s) = trace s /\
  table_view (updated k v p s) = table_view s /\
  list_mem (updated k v p s) = list_mem s.
Proof.
  intros Hp Hn Hold Hfresh. split; [|repeat split].
  - rewrite (insert_occupied_slot k v s p) by assumption.
    assert (Z.pos (brk s) <> p) as Hne
      by congruence.
    unfold store_item_value, load_item, store_item, bind, created, updated.
    st_simpl. rewrite cell_lookup by assumption.
    rewrite lookup_insert_ne by assumption. rewrite Hold. st_simpl.
    destruct (decide (k = k)); [|contradiction]. st_simpl.
    rewrite cell_lookup by assumption.
    rewrite lookup_insert_ne by assumption. rewrite Hold. st_simpl.
    rewrite cell_lookup by assumption.
    rewrite lookup_insert_ne by assumption. rewrite Hold. reflexivity.
  - unfold updated. st_simpl. apply lookup_insert_eq.
Qed.

(** C7: [count] follows the primary slots only.  An insert into an
    occupied slot (update or collision, whatever becomes of the call)
    leaves [count] alone, an insert into an empty slot of a table that is
    not full returns with [count] one higher, and no insert ends with a
    smaller [count]. *)
Theorem C7_count_follows_primary_inserts k v s :
  (forall p, items s !! index_of k = Some p -> p <> NULL ->
     count (final (lv_insert_buf_map uninit sprintf_p k v s)) = count s) /\
  (items s !! index_of k = Some NULL -> count s <> tsize s ->
     lv_insert_buf_map uninit sprintf_p k v s = Done tt (inserted k v s) /\
     count (inserted k v s) = count s + 1) /\
  count s <= count (final (lv_insert_buf_map uninit sprintf_p k v s)).
Proof.
  assert (forall p, items s !! index_of k = Some p -> p <> NULL ->
     count (final (lv_insert_buf_map uninit sprintf_p k v s)) = count s) as Hocc.
  { intros p Hp Hn. rewrite (insert_occupied_slot k v s p) by assumption.
    match goal with |- count (final (?m ?st)) = _ =>
      assert (keeps count m) as K by keeps; rewrite (K st) end.
    reflexivity. }
  split; [exact Hocc|]. split.
  - intros Hp Hc. split; [apply insert_empty_slot; assumption | reflexivity].
  - destruct (items s !! index_of k) as [p|] eqn:Hp.
    + destruct (decide (p = NULL)) as [->|Hn].
      * destruct (decide (count s = tsize s)) as [Hc|Hc].
        -- rewrite insert_full_table by assumption.
           match goal with |- _ <= count (final (?m ?st)) =>
             assert (keeps count m) as K
               by (unfold G2D_ASSERT_MSG; keeps);
             rewrite (K st) end.
           simpl. lia.
        -- rewrite insert_empty_slot by assumption. simpl. lia.
      * rewrite (Hocc p) by auto. lia.
    + rewrite insert_no_slot by assumption. simpl. lia.
Qed.

(** C5: in every state reached from [lv_create_buf_map] by inserts,
    searches and removals that returned, [count] is the number of occupied
    primary slots; so whenever a key hashes to an empty slot the table-full
    test fails, the insert returns with the entry stored, and a search for
    the key finds the resource. *)
Theorem C5_count_is_primary_occupancy cs s :
  session uninit sprintf_p cs = Done tt s ->
  count s = occupied (items s) /\
  forall k v, items s !! index_of k = Some NULL ->
    count s <> tsize s /\
    lv_insert_buf_map uninit sprintf_p k v s = Done tt (inserted k v s) /\
    lv_search_buf_map sprintf_p k (inserted k v s) = Done v (inserted k v s).
Proof.
  intros H. apply session_inv in H as [I1 I2 I3 I4 I5].
  split; [exact I4|]. intros k v Hp.
  assert (count s <> tsize s) as Hc.
  { pose proof (occupied_empty_slot _ _ Hp). rewrite I4, I1, I2 in *.
    unfold HASH_TABLE_SIZE in *. lia. }
  split; [exact Hc|]. split; [apply insert_empty_slot; assumption|].
  apply (search_primary k v _ (Z.pos (brk s))).
  - simpl. apply list_lookup_insert_eq. eapply lookup_lt_Some; eassumption.
  - simpl. rewrite (I5 _ Hp). eauto.
  - simpl. rewrite cell_lookup by discriminate. apply lookup_insert_eq.
Qed.

(** C10: in every state reached from [lv_create_buf_map] by inserts,
    searches and removals that returned, every bucket index below
    [HASH_TABLE_SIZE] has a slot, and a bucket whose primary slot is empty
    has an empty overflow chain. *)
Theorem C10_no_chain_without_primary cs s (i : nat) :
  session uninit sprintf_p cs = Done tt s ->
  (i < Z.to_nat HASH_TABLE_SIZE)%nat ->
  (exists p, items s !! i = Some p) /\
  (items s !! i = Some NULL -> overflow_list s !! i = Some NULL).
Proof.
  intros H Hi. apply session_inv in H as [I1 I2 I3 I4 I5]. split.
  - apply lookup_lt_is_Some. rewrite I2. exact Hi.
  - apply I5.
Qed.

End Claims.

(** * Runs on the concrete platform *)

Example keys_collide :
  index_of glibc_p keyA = 18%nat /\ index_of glibc_p keyB = 18%nat /\
  index_of glibc_p keyC = 18%nat /\ index_of glibc_p keyD = 18%nat /\
  index_of glibc_p keyZ = 19%nat.
Proof. split; [|split; [|split; [|split]]]; vm_compute; reflexivity. Qed.

Lemma C5_witness :
  let s := final (session0 [Insert keyA 1001; Insert keyB 1002; FreeItem keyA]) in
  count s = occupied (items s) /\
  forall k v, items s !! index_of glibc_p k = Some NULL ->
    count s <> tsize s /\
    lv_insert_buf_map zeroed glibc_p k v s = Done tt (inserted glibc_p k v s) /\
    lv_search_buf_map glibc_p k (inserted glibc_p k v s)
      = Done v (inserted glibc_p k v s).
Proof.
  intros s.
  apply (C5_count_is_primary_occupancy zeroed glibc_p
           [Insert keyA 1001; Insert keyB 1002; FreeItem keyA]).
  vm_compute. reflexivity.
Defined.

Lemma C10_witness :
  let s := final (session0 [Insert keyA 1001; Insert keyB 1002; FreeItem keyB]) in
  (exists p, items s !! 18%nat = Some p) /\
  (items s !! 18%nat = Some NULL -> overflow_list s !! 18%nat = Some NULL).
Proof.
  intros s.
  apply (C10_no_chain_without_primary zeroed glibc_p
           [Insert keyA 1001; Insert keyB 1002; FreeItem keyB]).
  - vm_compute. reflexivity.
  - vm_compute. lia.
Defined.

Lemma C6_witness :
  lv_insert_buf_map zeroed glibc_p keyA 1001 full_table
    = Done tt (rejected keyA 1001 full_table) /\
  trace (rejected keyA 1001 full_table) =
    trace full_table ++ [LvFreeKey keyA; G2dFree 1001; AssertMsg table_full_msg] /\
  table_view (rejected keyA 1001 full_table) = table_view full_table /\
  item_mem (rejected keyA 1001 full_table) = item_mem full_table /\
  list_mem (rejected keyA 1001 full_table) = list_mem full_table.
Proof.
  apply (C6_full_table_rejects_insert zeroed glibc_p keyA 1001 full_table).
  - vm_compute. reflexivity.
  - vm_compute. reflexivity.
  - vm_compute. reflexivity.
Defined.

Lemma C9_witness :
  lv_insert_buf_map zeroed glibc_p keyA 2002 one_key
    = Done tt (updated keyA 2002 1 one_key) /\
  item_mem (updated keyA 2002 1 one_key) !! 1 = Some (MapItem keyA 2002) /\
  trace (updated keyA 2002 1 one_key) = trace one_key /\
  table_view (updated keyA 2002 1 one_key) = table_view one_key /\
  list_mem (updated keyA 2002 1 one_key) = list_mem one_key.
Proof.
  apply (C9_same_key_updates_in_place zeroed glibc_p keyA 2002 one_key 1 1001).
  - vm_compute. reflexivity.
  - discriminate.
  - vm_compute. reflexivity.
  - vm_compute. reflexivity.
Defined.

Lemma C7_witness :
  count (final (lv_insert_buf_map zeroed glibc_p keyB 1002 one_key))
    = count one_key /\
  (lv_insert_buf_map zeroed glibc_p keyZ 1003 one_key
     = Done tt (inserted glibc_p keyZ 1003 one_key) /\
   count (inserted glibc_p keyZ 1003 one_key) = count one_key + 1) /\
  count one_key <= count (final (lv_insert_buf_map zeroed glibc_p keyB 1002 one_key)).
Proof.
  split; [|split].
  - apply (proj1 (C7_count_follows_primary_inserts zeroed glibc_p keyB 1002 one_key) 1).
    + vm_compute. reflexivity.
    + discriminate.
  - apply (proj1 (proj2 (C7_count_follows_primary_inserts zeroed glibc_p keyZ 1003 one_key))).
    + vm_compute. reflexivity.
    + vm_compute. discriminate.
  - apply (proj2 (proj2 (C7_count_follows_primary_inserts zeroed glibc_p keyB 1002 one_key))).
Defined.

(** ** Runs that leave the specified behaviour *)

(** C1: the round trip fails for an entry that lives in the overflow
    chain.  After [keyA] and then the colliding [keyB] are inserted, the
    chain of bucket 18 holds the entry of [keyB], and the search for [keyB]
    returns NULL: [lv_search_buf_map] reads the head of the chain and
    compares nothing with it. *)
Theorem C1_search_skips_chain_entries uninit :
  let s := final (session uninit glibc_p [Insert keyA 1001; Insert keyB 1002]) in
  session uninit glibc_p [Insert keyA 1001; Insert keyB 1002] = Done tt s /\
  (exists node, overflow_list s !! 18%nat = Some 3 /\
     list_mem s !! 3 = Some node /\
     item_mem s !! item node = Some (MapItem keyB 1002)) /\
  lv_search_buf_map glibc_p keyB s = Done NULL s.
Proof.
  intros s. split; [|split].
  - vm_compute. reflexivity.
  - exists (ListNode 2 (next (uninit 3))).
    split; [|split]; vm_compute; reflexivity.
  - vm_compute. reflexivity.
Qed.

(** C3: removing the primary key of a bucket with a chain puts a copy of
    the chain head into the slot and then frees the head with [_list_free],
    which releases the key and the resource of the promoted entry: after the
    removal of [keyA], the trace holds the release of [keyB] and of its
    resource while slot 18 holds an item with exactly that key and
    resource, which a search still returns. *)
Theorem C3_promotion_releases_promoted_entry uninit :
  let cs := [Insert keyA 1001; Insert keyB 1002; FreeItem keyA] in
  let s := final (session uninit glibc_p cs) in
  session uninit glibc_p cs = Done tt s /\
  trace s = [LvFreeKey keyA; G2dFree 1001; LvFreeKey keyB; G2dFree 1002] /\
  (exists p, items s !! 18%nat = Some p /\
     item_mem s !! p = Some (MapItem keyB 1002)) /\
  lv_search_buf_map glibc_p keyB s = Done 1002 s.
Proof.
  intros cs s. split; [|split; [|split]].
  - vm_compute. reflexivity.
  - vm_compute. reflexivity.
  - exists 4. split; vm_compute; reflexivity.
  - vm_compute. reflexivity.
Qed.

(** C2: resources are not released exactly once.  A resource promoted by a
    removal is released by that removal and again by [lv_free_buf_map]; a
    third entry of a chain is overwritten by the fourth in [_list_insert]
    and is never released. *)
Theorem C2_release_counts_off :
  let twice := final (lifetime zeroed glibc_p
                 [Insert keyA 1001; Insert keyB 1002; FreeItem keyA]) in
  let never := final (lifetime zeroed glibc_p
                 [Insert keyA 1001; Insert keyB 1002; Insert keyC 1003;
                  Insert keyD 1004]) in
  lifetime zeroed glibc_p [Insert keyA 1001; Insert keyB 1002; FreeItem keyA]
    = Done tt twice /\
  releases 1002 twice = 2%nat /\
  lifetime zeroed glibc_p
    [Insert keyA 1001; Insert keyB 1002; Insert keyC 1003; Insert keyD 1004]
    = Done tt never /\
  releases 1003 never = 0%nat.
Proof.
  intros twice never. split; [|split; [|split]]; vm_compute; reflexivity.
Qed.

(** C4: removing the second node of a chain releases the node but leaves
    the link of its predecessor pointing at it; removing the middle-inserted
    key of three (the chain head) releases the whole chain, the third key
    included, which no search finds afterwards. *)
Theorem C4_chain_removal_breaks_chain :
  let before := final (session0 [Insert keyA 1001; Insert keyB 1002; Insert keyC 1003]) in
  let s := final (session0 [Insert keyA 1001; Insert keyB 1002; Insert keyC 1003;
                            FreeItem keyC]) in
  let m := final (session0 [Insert keyA 1001; Insert keyB 1002; Insert keyC 1003;
                            FreeItem keyB]) in
  (overflow_list before !! 18%nat = Some 3 /\
   list_mem before !! 3 = Some (ListNode 2 5) /\
   list_mem before !! 5 = Some (ListNode 4 NULL) /\
   item_mem before !! 2 = Some (MapItem keyB 1002) /\
   item_mem before !! 4 = Some (MapItem keyC 1003)) /\
  (session0 [Insert keyA 1001; Insert keyB 1002; Insert keyC 1003; FreeItem keyC]
     = Done tt s /\
   overflow_list s !! 18%nat = Some 3 /\
   list_mem s !! 3 = Some (ListNode 2 5) /\
   list_mem s !! 5 = None) /\
  (session0 [Insert keyA 1001; Insert keyB 1002; Insert keyC 1003; FreeItem keyB]
     = Done tt m /\
   overflow_list m !! 18%nat = Some NULL /\
   trace m = [LvFreeKey keyB; G2dFree 1002; LvFreeKey keyC; G2dFree 1003] /\
   lv_search_buf_map glibc_p keyC m = Done NULL m).
Proof.
  intros before s m.
  split; [split; [|split; [|split; [|split]]] |
          split; [split; [|split; [|split]] | split; [|split; [|split]]]];
    vm_compute; reflexivity.
Qed.

(** C8: a repeated removal is not always a no-op.  After the second node
    of a chain was removed, removing the same key again, or an absent key of
    the same bucket, walks into the released node; and when a key sits in
    the slot and in the chain, the second removal removes another entry and
    decrements [count]. *)
Theorem C8_second_remove_is_no_noop :
  let s := final (session0 [Insert keyA 1001; Insert keyB 1002; Insert keyC 1003;
                            FreeItem keyC]) in
  let d := final (session0 [Insert keyA 1001; Insert keyB 1002; Insert keyB 1003;
                            FreeItem keyA; FreeItem keyB]) in
  (session0 [Insert keyA 1001; Insert keyB 1002; Insert keyC 1003; FreeItem keyC]
     = Done tt s /\
   lv_free_item glibc_p keyC s = Abort BadAccess s /\
   lv_free_item glibc_p keyD s = Abort BadAccess s) /\
  (session0 [Insert keyA 1001; Insert keyB 1002; Insert keyB 1003;
             FreeItem keyA; FreeItem keyB] = Done tt d /\
   count d = 1 /\
   count (final (lv_free_item glibc_p keyB d)) = 0).
Proof.
  intros s d. split; (split; [|split]); vm_compute; reflexivity.
Qed.

(** * Further properties of the functions *)

(** Reduces the field updates and field reads of a state in a hypothesis. *)
Ltac st_simpl_in H :=
  cbv [with_count with_items with_overflow_list with_item_mem with_list_mem
       with_brk with_trace] in H;
  cbn [tsize count items overflow_list item_mem list_mem brk trace key value
       item next] in H.

(** [f] across a returned call that keeps it, under the name [K]. *)
Ltac frame_as f E K :=
  match type of E with
  | ?m _ = Done _ _ =>
      assert (K : keeps f m) by eauto with keeps;
      apply (fun K' => keeps_Done f m _ _ _ K' E) in K
  end.

(** ** Calls that leave the heaps alone *)

Lemma keeps_heap_emit e : keeps heap_view (emit e).
Proof. intros s. reflexivity. Qed.
Lemma keeps_heap_load_item p : keeps heap_view (load_item p).
Proof. intros s. unfold load_item. destruct (cell _ _); reflexivity. Qed.
Lemma keeps_heap_load_list p : keeps heap_view (load_list p).
Proof. intros s. unfold load_list. destruct (cell _ _); reflexivity. Qed.
Lemma keeps_heap_get_items i : keeps heap_view (get_items i).
Proof. intros s. unfold get_items. destruct (_ !! _); reflexivity. Qed.
Lemma keeps_heap_set_items i p : keeps heap_view (set_items i p).
Proof. intros s. unfold set_items. destruct (_ !! _); reflexivity. Qed.
Lemma keeps_heap_get_overflow_list i : keeps heap_view (get_overflow_list i).
Proof. intros s. unfold get_overflow_list. destruct (_ !! _); reflexivity. Qed.
Lemma keeps_heap_set_overflow_list i p : keeps heap_view (set_overflow_list i p).
Proof. intros s. unfold set_overflow_list. destruct (_ !! _); reflexivity. Qed.
Lemma keeps_heap_get_count : keeps heap_view get_count.
Proof. intros s. reflexivity. Qed.
Lemma keeps_heap_set_count c : keeps heap_view (set_count c).
Proof. intros s. reflexivity. Qed.
Lemma keeps_heap_get_size : keeps heap_view get_size.
Proof. intros s. reflexivity. Qed.
Lemma keeps_heap_live_nodes : keeps heap_view live_nodes.
Proof. intros s. reflexivity. Qed.

#[export] Hint Resolve keeps_heap_emit keeps_heap_load_item
  keeps_heap_load_list keeps_heap_get_items keeps_heap_set_items
  keeps_heap_get_overflow_list keeps_heap_set_overflow_list
  keeps_heap_get_count keeps_heap_set_count keeps_heap_get_size
  keeps_heap_live_nodes : keeps.

(** The heaps across a returned call that does not touch them. *)
Ltac frame_heap E :=
  match type of E with
  | ?m _ = Done _ _ =>
      let K := fresh "K" in
      assert (K : keeps heap_view m) by eauto with keeps;
      apply (fun K' => keeps_Done heap_view m _ _ _ K' E) in K;
      unfold heap_view in K; injection K as ? ? ?
  end.

(** ** The heap primitives, inverted *)

Lemma emit_ret e s u s' :
  emit e s = Done u s' -> s' = with_trace (trace s ++ [e]) s.
Proof. unfold emit. intros E. inversion E. reflexivity. Qed.

Lemma free_item_ret p s u s' :
  free_item p s = Done u s' ->
  p <> NULL /\ is_Some (item_mem s !! p) /\
  s' = with_item_mem (delete p (item_mem s)) s.
Proof.
  unfold free_item. destruct (cell _ _) eqn:C; intros E; inversion E.
  apply cell_Some in C as [? ?]. eauto.
Qed.

Lemma free_list_ret p s u s' :
  free_list p s = Done u s' ->
  p <> NULL /\ is_Some (list_mem s !! p) /\
  s' = with_list_mem (delete p (list_mem s)) s.
Proof.
  unfold free_list. destruct (cell _ _) eqn:C; intros E; inversion E.
  apply cell_Some in C as [? ?]. eauto.
Qed.

Lemma store_list_next_ret p v s u s' :
  store_list_next p v s = Done u s' ->
  exists n, p <> NULL /\ list_mem s !! p = Some n /\
    s' = with_list_mem (<[p := ListNode (item n) v]> (list_mem s)) s.
Proof.
  unfold store_list_next, bind, load_list, store_list.
  destruct (cell _ _) as [n|] eqn:C; [|discriminate]. rewrite C.
  intros E; inversion E. apply cell_Some in C as [? ?]. eauto.
Qed.

Lemma store_item_value_ret p v s u s' :
  store_item_value p v s = Done u s' ->
  exists i, p <> NULL /\ item_mem s !! p = Some i /\
    s' = with_item_mem (<[p := MapItem (key i) v]> (item_mem s)) s.
Proof.
  unfold store_item_value, bind, load_item, store_item.
  destruct (cell _ _) as [n|] eqn:C; [|discriminate]. rewrite C.
  intros E; inversion E. apply cell_Some in C as [? ?]. eauto.
Qed.

Lemma map_free_item_ret p s u s' :
  _map_free_item p s = Done u s' ->
  exists i, p <> NULL /\ item_mem s !! p = Some i /\
    s' = with_item_mem (delete p (item_mem s))
           (with_trace (trace s ++ [LvFreeKey (key i); G2dFree (value i)]) s).
Proof.
  unfold _map_free_item, bind, load_item, emit, free_item.
  destruct (cell _ _) as [i|] eqn:C; [|discriminate].
  st_simpl. rewrite C. intros E; inversion E.
  apply cell_Some in C as [? ?]. exists i. rewrite <- app_assoc. eauto.
Qed.

(** ** Releasing nodes *)

Lemma heap_shrinks_same s s' :
  item_mem s' = item_mem s -> list_mem s' = list_mem s -> brk s' = brk s ->
  heap_shrinks s s'.
Proof.
  intros Hi Hl Hb. split; [exact Hb|]. split.
  - intros a n' H. rewrite Hl in H. eauto.
  - intros p H. left. rewrite Hi. exact H.
Qed.

Lemma heap_shrinks_trans s1 s2 s3 :
  heap_shrinks s1 s2 -> heap_shrinks s2 s3 -> heap_shrinks s1 s3.
Proof.
  intros (B1 & N1 & I1) (B2 & N2 & I2). split; [congruence|]. split.
  - intros a n3 H. destruct (N2 _ _ H) as (n2 & H2 & E2).
    destruct (N1 _ _ H2) as (n1 & H1 & E1). exists n1. split; congruence.
  - intros p H. destruct (I1 _ H) as [H1|H1]; [|auto].
    destruct (I2 _ H1) as [H2|(a & n & Hn & E)]; [auto|].
    right. destruct (N1 _ _ Hn) as (n1 & Hn1 & E1). exists a, n1.
    split; congruence.
Qed.

Lemma list_free_loop_shrinks fuel : forall l s s',
  _list_free_loop fuel l s = Done tt s' -> heap_shrinks s s'.
Proof.
  induction fuel as [|fuel IH]; intros l s s' H; simpl in H.
  - destruct (decide (l = NULL)); [|discriminate].
    inversion H. apply heap_shrinks_same; reflexivity.
  - destruct (decide (l = NULL)).
    { inversion H. apply heap_shrinks_same; reflexivity. }
    inv_bind H. apply load_list_Done in E as [-> [_ Hl]].
    inv_bind H. apply load_item_Done in E as [-> [_ Hi]].
    inv_bind H. apply emit_ret in E. subst s0.
    inv_bind H. apply emit_ret in E. subst s0.
    inv_bind H. apply free_item_ret in E as [_ [_ ->]].
    inv_bind H. apply free_list_ret in E as [_ [_ ->]].
    apply IH in H. eapply heap_shrinks_trans; [|exact H].
    split; [reflexivity|]. split.
    + intros b n' Hb. st_simpl. st_simpl_in Hb.
      apply lookup_delete_Some in Hb as [_ Hb]. eauto.
    + intros p Hp. st_simpl.
      destruct (decide (item a = p)) as [<-|Hne]; [right; eauto|].
      left. rewrite lookup_delete_ne by assumption. exact Hp.
Qed.

Lemma list_free_shrinks l s u s' :
  _list_free l s = Done u s' -> heap_shrinks s s'.
Proof.
  destruct u. unfold _list_free, bind, live_nodes.
  apply list_free_loop_shrinks.
Qed.

Lemma store_list_next_shrinks p v s u s' :
  store_list_next p v s = Done u s' -> heap_shrinks s s'.
Proof.
  intros H. apply store_list_next_ret in H as (n & Hn & Hp & Heq); subst s'.
  split; [reflexivity|]. split.
  - intros a n' Ha. st_simpl_in Ha.
    destruct (decide (p = a)) as [<-|Hne].
    + rewrite lookup_insert_eq in Ha. injection Ha as <-. eauto.
    + rewrite lookup_insert_ne in Ha by assumption. eauto.
  - intros q Hq. left. exact Hq.
Qed.

Lemma walk_shrinks fuel k i : forall head curr prev s s',
  lv_free_item_walk fuel k i head curr prev s = Done tt s' ->
  heap_shrinks s s'.
Proof.
  induction fuel as [|fuel IH]; intros head curr prev s s' H; simpl in H.
  - destruct (decide (curr = NULL)); [|discriminate].
    inversion H. apply heap_shrinks_same; reflexivity.
  - destruct (decide (curr = NULL)).
    { inversion H. apply heap_shrinks_same; reflexivity. }
    inv_bind H. apply load_list_Done in E as [-> [_ Hl]].
    inv_bind H. apply load_item_Done in E as [-> [_ Hi]].
    destruct (decide (key a0 = k)).
    + destruct (decide (prev = NULL)).
      * inv_bind H. apply list_free_shrinks in E.
        frame_heap H. eapply heap_shrinks_trans; [exact E|].
        apply heap_shrinks_same; assumption.
      * inv_bind H. apply store_list_next_shrinks in E.
        inv_bind H. apply store_list_next_shrinks in E0.
        inv_bind H. apply list_free_shrinks in E1.
        frame_heap H.
        eapply heap_shrinks_trans; [exact E|].
        eapply heap_shrinks_trans; [exact E0|].
        eapply heap_shrinks_trans; [exact E1|].
        apply heap_shrinks_same; assumption.
    + eapply IH. exact H.
Qed.

(** ** Adding a node *)

Lemma heap_grows_shrinks it s1 s2 s3 :
  heap_grows it s1 s2 -> item_mem s3 = item_mem s2 -> brk s3 = brk s2 ->
  nodes_kept s2 s3 -> heap_grows it s1 s3.
Proof.
  intros (I & B & N) I3 B3 N3. split; [congruence|]. split; [congruence|].
  intros a n3 H. destruct (N3 _ _ H) as (n2 & H2 & E2).
  destruct (N _ _ H2) as [(n1 & H1 & E1)|E1]; [left|right].
  - exists n1. split; congruence.
  - congruence.
Qed.

Lemma store_list_next_grows it p v s1 s2 u s3 :
  heap_grows it s1 s2 -> store_list_next p v s2 = Done u s3 ->
  heap_grows it s1 s3.
Proof.
  intros G H. pose proof H as H'.
  apply store_list_next_ret in H' as (n & _ & _ & Heq).
  apply store_list_next_shrinks in H as (B & N & _).
  eapply heap_grows_shrinks; [exact G | | exact B | exact N].
  subst s3. reflexivity.
Qed.

Section Chaining.
Variable uninit : ptr -> lv_list_t.

Lemma alloc_item_grows it s h s1 u s2 :
  _list_alloc uninit s = Done h s1 ->
  store_list_item h it s1 = Done u s2 ->
  heap_grows it s s2.
Proof.
  unfold _list_alloc. intros E1 E2. inversion E1; subst h s1; clear E1.
  unfold store_list_item, bind, load_list, store_list in E2.
  destruct (cell _ _) as [n|] eqn:C; [|discriminate]. rewrite C in E2.
  inversion E2; subst s2; clear E2.
  split; [reflexivity|]. split; [reflexivity|].
  intros a n' Ha. st_simpl_in Ha.
  destruct (decide (Z.pos (brk s) = a)) as [<-|Hne].
  - rewrite lookup_insert_eq in Ha. injection Ha as <-. right. reflexivity.
  - rewrite !lookup_insert_ne in Ha by assumption. left. eauto.
Qed.

Lemma new_node_grows it s h s' :
  new_node uninit it s = Done h s' -> heap_grows it s s'.
Proof.
  unfold new_node. intros H.
  inv_bind H. inv_bind H. inv_bind H. inversion H; subst; clear H.
  eapply store_list_next_grows; [|exact E1].
  eapply alloc_item_grows; eassumption.
Qed.

Lemma list_insert_seek_ret fuel : forall temp s r s',
  _list_insert_seek fuel temp s = Done r s' -> s' = s.
Proof.
  induction fuel as [|fuel IH]; intros temp s r s' H; simpl in H; [discriminate|].
  inv_bind H. apply load_list_Done in E as [-> _].
  inv_bind H. apply load_list_Done in E as [-> _].
  destruct (decide (next a0 = NULL)); [inversion H; reflexivity|].
  eapply IH. exact H.
Qed.

Lemma list_insert_grows list it s r s' :
  _list_insert uninit list it s = Done r s' -> heap_grows it s s'.
Proof.
  unfold _list_insert. intros H.
  destruct (decide (list = NULL)).
  { eapply new_node_grows. exact H. }
  inv_bind H. apply load_list_Done in E as [-> _].
  destruct (decide (next a = NULL)).
  - inv_bind H. apply new_node_grows in E. inv_bind H.
    inversion H; subst; clear H.
    eapply store_list_next_grows; eassumption.
  - inv_bind H. inversion E; subst a0 s0; clear E.
    inv_bind H. apply list_insert_seek_ret in E. subst s0.
    inv_bind H. apply new_node_grows in E. inv_bind H.
    inversion H; subst; clear H.
    eapply store_list_next_grows; eassumption.
Qed.

Lemma handle_collision_grows i it s u s' :
  _handle_collision uninit i it s = Done u s' -> heap_grows it s s'.
Proof.
  unfold _handle_collision. intros H.
  inv_bind H. apply get_overflow_list_Done in E as [-> _].
  destruct (decide (a = NULL)).
  - inv_bind H. inv_bind H. frame_heap H.
    pose proof (alloc_item_grows _ _ _ _ _ _ E E0) as (I & B & N).
    split; [congruence|]. split; [congruence|].
    intros b n' Hb. apply N. congruence.
  - inv_bind H. apply list_insert_grows in E as (I & B & N). frame_heap H.
    split; [congruence|]. split; [congruence|].
    intros b n' Hb. apply N. congruence.
Qed.

End Chaining.

(** ** The heap invariant *)

Lemma heap_inv_ext s s' :
  items s' = items s -> item_mem s' = item_mem s ->
  list_mem s' = list_mem s -> brk s' = brk s ->
  heap_inv s -> heap_inv s'.
Proof.
  intros E1 E2 E3 E4 [H1 H2 H3 H4 H5].
  constructor; rewrite ?E1, ?E2, ?E3, ?E4; assumption.
Qed.

Lemma heap_inv_created k v s : heap_inv s -> heap_inv (created k v s).
Proof.
  intros [H1 H2 H3 H4 H5]. unfold created. constructor; st_simpl.
  - intros i p Hp Hn. destruct (H1 i p Hp Hn) as [x Hx].
    destruct (decide (Z.pos (brk s) = p)) as [<-|Hne].
    + rewrite lookup_insert_eq. eauto.
    + rewrite lookup_insert_ne by assumption. eauto.
  - exact H2.
  - intros i p Hp. specialize (H3 i p Hp). rewrite Pos2Z.inj_succ. lia.
  - intros a n Ha. specialize (H4 a n Ha). rewrite Pos2Z.inj_succ. lia.
  - exact H5.
Qed.

Lemma heap_inv_shrinks s s' :
  heap_inv s -> heap_shrinks s s' -> items s' = items s -> heap_inv s'.
Proof.
  intros [H1 H2 H3 H4 H5] (B & N & I) E. constructor; rewrite ?E, ?B.
  - intros i p Hp Hn. destruct (I p (H1 i p Hp Hn)) as [|(a & n & Ha & Hi)]; [assumption|].
    subst p. specialize (H5 a n i Ha Hp). contradiction.
  - exact H2.
  - exact H3.
  - intros a n' Ha. destruct (N a n' Ha) as (n & Hn & ->). eauto.
  - intros a n' i Ha Hi. destruct (N a n' Ha) as (n & Hn & En).
    rewrite En in *. eauto.
Qed.

Lemma heap_inv_grows it s s' :
  heap_inv s -> heap_grows it s s' -> items s' = items s ->
  it < Z.pos (brk s) -> (forall i, items s !! i <> Some it) ->
  heap_inv s'.
Proof.
  intros [H1 H2 H3 H4 H5] (I & B & N) E Hit Hfree.
  constructor; rewrite ?E, ?B, ?I, ?Pos2Z.inj_succ.
  - exact H1.
  - exact H2.
  - intros i p Hp. specialize (H3 i p Hp). lia.
  - intros a n' Ha. destruct (N a n' Ha) as [(n & Hn & ->)| ->].
    + specialize (H4 a n Hn). lia.
    + lia.
  - intros a n' i Ha Hi. destruct (N a n' Ha) as [(n & Hn & En)|En].
    + rewrite En in *. eauto.
    + rewrite En in Hi. specialize (Hfree i). contradiction.
Qed.

(** Putting an allocated item that nothing refers to into a slot. *)
Lemma heap_inv_fill_slot i q s :
  heap_inv s -> q <> NULL -> is_Some (item_mem s !! q) ->
  q < Z.pos (brk s) ->
  (forall j, items s !! j <> Some q) ->
  (forall a n, list_mem s !! a = Some n -> item n <> q) ->
  heap_inv (with_items (<[i := q]> (items s)) s).
Proof.
  intros [H1 H2 H3 H4 H5] Hq Hlive Hold Hslots Hnodes.
  assert (forall j p, <[i := q]> (items s) !! j = Some p ->
            (j = i /\ p = q) \/ (j <> i /\ items s !! j = Some p)) as Hcase.
  { intros j p Hp. destruct (decide (i = j)) as [<-|Hne].
    - left. apply list_lookup_insert_Some in Hp as [(_ & -> & _)|(? & _)]; [auto | contradiction].
    - right. rewrite list_lookup_insert_ne in Hp by assumption. auto. }
  constructor; st_simpl.
  - intros j p Hp Hn. destruct (Hcase j p Hp) as [[_ ->]|[_ Hj]]; eauto.
  - intros j1 j2 p Hp1 Hp2 Hn.
    destruct (Hcase j1 p Hp1) as [[E1 Eq1]|[? Hj1]];
      destruct (Hcase j2 p Hp2) as [[E2 Eq2]|[? Hj2]]; subst;
      try reflexivity.
    + exfalso. eapply Hslots. exact Hj2.
    + exfalso. eapply Hslots. exact Hj1.
    + eauto.
  - intros j p Hp. destruct (Hcase j p Hp) as [[_ ->]|[_ Hj]]; eauto.
  - exact H4.
  - intros a n j Ha Hj. destruct (Hcase j _ Hj) as [[_ Hn]|[_ Hj']].
    + exfalso. eapply Hnodes; eassumption.
    + eauto.
Qed.

(** Releasing the item of a slot and clearing the slot. *)
Lemma heap_inv_clear_slot i p s :
  heap_inv s -> items s !! i = Some p ->
  heap_inv (with_item_mem (delete p (item_mem s))
              (with_items (<[i := NULL]> (items s)) s)).
Proof.
  intros [H1 H2 H3 H4 H5] Hi.
  assert (forall j q, <[i := NULL]> (items s) !! j = Some q -> q <> NULL ->
            j <> i /\ items s !! j = Some q) as Hcase.
  { intros j q Hq Hn. destruct (decide (i = j)) as [<-|Hne].
    - apply list_lookup_insert_Some in Hq as [(_ & <- & _)|(? & _)]; contradiction.
    - rewrite list_lookup_insert_ne in Hq by assumption. auto. }
  constructor; st_simpl.
  - intros j q Hq Hn. destruct (Hcase j q Hq Hn) as [Hne Hj].
    rewrite lookup_delete_ne; [eauto|].
    intros <-. apply Hne. eauto.
  - intros j1 j2 q Hq1 Hq2 Hn.
    destruct (Hcase j1 q Hq1 Hn) as [_ Hj1].
    destruct (Hcase j2 q Hq2 Hn) as [_ Hj2]. eauto.
  - intros j q Hq. destruct (decide (q = NULL)) as [->|Hn]; [reflexivity|].
    destruct (Hcase j q Hq Hn) as [_ Hj]. eauto.
  - exact H4.
  - intros a n j Ha Hj. destruct (decide (item n = NULL)) as [|Hn]; [assumption|].
    destruct (Hcase j _ Hj Hn) as [_ Hj']. eauto.
Qed.

(** ** [lv_search_buf_map] *)

Lemma search_keeps_state sprintf_p k s :
  final (lv_search_buf_map sprintf_p k s) = s.
Proof.
  unfold lv_search_buf_map, bind, get_items, get_overflow_list.
  destruct (items s !! _); [|reflexivity].
  destruct (overflow_list s !! _); [|reflexivity].
  destruct (decide (_ = NULL)); [reflexivity|].
  unfold load_item. destruct (cell (item_mem s) _) as [it|]; [|reflexivity].
  destruct (decide (key it = k)); [reflexivity|].
  destruct (decide (_ = NULL)); [reflexivity|].
  unfold load_list. destruct (cell (list_mem s) _); reflexivity.
Qed.

Section HeapInvariant.
Variable uninit : ptr -> lv_list_t.
Variable sprintf_p : ptr -> string.
Local Abbreviation index_of := (index_of sprintf_p).

Lemma fresh_not_in_slots s :
  heap_inv s -> forall j, items s !! j <> Some (Z.pos (brk s)).
Proof. intros H j Hj. pose proof (hi_slots_old s H j _ Hj). lia. Qed.

Lemma fresh_not_in_nodes s :
  heap_inv s -> forall a n, list_mem s !! a = Some n -> item n <> Z.pos (brk s).
Proof. intros H a n Ha E. pose proof (hi_nodes_old s H a n Ha). lia. Qed.

Lemma heap_inv_relink a n v s :
  heap_inv s -> list_mem s !! a = Some n ->
  heap_inv (with_list_mem (<[a := ListNode (item n) v]> (list_mem s)) s).
Proof.
  intros [H1 H2 H3 H4 H5] Ha.
  assert (forall b n', <[a := ListNode (item n) v]> (list_mem s) !! b = Some n' ->
            exists n0, list_mem s !! b = Some n0 /\ item n' = item n0) as Hcase.
  { intros b n' Hb. destruct (decide (a = b)) as [<-|Hne].
    - rewrite lookup_insert_eq in Hb. injection Hb as <-. eauto.
    - rewrite lookup_insert_ne in Hb by assumption. eauto. }
  constructor; st_simpl; try assumption.
  - intros b n' Hb. destruct (Hcase b n' Hb) as (n0 & Hn0 & ->). eauto.
  - intros b n' j Hb Hj. destruct (Hcase b n' Hb) as (n0 & Hn0 & E).
    rewrite E in *. eauto.
Qed.

Lemma insert_heap_inv k v s s' :
  heap_inv s ->
  lv_insert_buf_map uninit sprintf_p k v s = Done tt s' ->
  heap_inv s'.
Proof.
  intros I H.
  destruct (items s !! index_of k) as [p|] eqn:Hp;
    [|rewrite insert_no_slot in H by assumption; discriminate].
  destruct (decide (p = NULL)) as [->|Hn].
  - destruct (decide (count s = tsize s)) as [Hc|Hc].
    + rewrite insert_full_table in H by assumption.
      inv_bind H. apply map_free_item_ret in E as (i & _ & _ & ->).
      unfold G2D_ASSERT_MSG in H. apply emit_ret in H. subst s'.
      apply (heap_inv_ext
               (with_item_mem (delete (Z.pos (brk s)) (item_mem (created k v s)))
                  (created k v s))); [reflexivity..|].
      pose proof (heap_inv_created k v s I) as [H1 H2 H3 H4 H5].
      constructor; st_simpl; try assumption.
      intros j q Hq Hqn. rewrite lookup_delete_ne; [eauto|].
      intros <-. eapply (fresh_not_in_slots s I). exact Hq.
    + rewrite insert_empty_slot in H by assumption.
      inversion H; subst s'; clear H.
      apply (heap_inv_ext
               (with_items (<[index_of k := Z.pos (brk s)]> (items (created k v s)))
                  (created k v s))); [reflexivity..|].
      apply heap_inv_fill_slot.
      * apply heap_inv_created. exact I.
      * discriminate.
      * unfold created. st_simpl. rewrite lookup_insert_eq. eauto.
      * unfold created. st_simpl. rewrite Pos2Z.inj_succ. lia.
      * apply (fresh_not_in_slots s I).
      * apply (fresh_not_in_nodes s I).
  - rewrite (insert_occupied_slot uninit sprintf_p k v s p) in H by assumption.
    inv_bind H. apply load_item_Done in E as [-> _].
    pose proof (heap_inv_created k v s I) as Ic.
    destruct (decide (key a = k)).
    + apply store_item_value_ret in H as (i & _ & Hi & ->).
      destruct Ic as [H1 H2 H3 H4 H5]. constructor; st_simpl; try assumption.
      intros j q Hq Hqn. destruct (H1 j q Hq Hqn) as [x Hx].
      destruct (decide (p = q)) as [<-|Hne].
      * rewrite lookup_insert_eq. eauto.
      * rewrite lookup_insert_ne by assumption. eauto.
    + frame_as items H Hk.
      apply handle_collision_grows in H.
      eapply (heap_inv_grows (Z.pos (brk s))); [exact Ic | exact H | exact Hk | |].
      * unfold created. st_simpl. rewrite Pos2Z.inj_succ. lia.
      * apply (fresh_not_in_slots s I).
Qed.

Lemma free_item_heap_inv k s s' :
  heap_inv s ->
  lv_free_item sprintf_p k s = Done tt s' ->
  heap_inv s'.
Proof.
  intros I H. unfold lv_free_item in H.
  inv_bind H. apply get_items_Done in E as [-> Hp].
  inv_bind H. apply get_overflow_list_Done in E as [-> Hh].
  destruct (decide (a = NULL)) as [Ha|Ha].
  { inversion H; subst. exact I. }
  destruct (decide (a0 = NULL)) as [Hn|Hn].
  - inv_bind H. apply load_item_Done in E as [-> _].
    destruct (decide (key a1 = k)); [|inversion H; subst; exact I].
    inv_bind H. apply set_items_Done in E. subst s0.
    inv_bind H. apply map_free_item_ret in E as (i & _ & _ & ->).
    inv_bind H. inversion E; subst a4 s0; clear E.
    inversion H; subst s'; clear H.
    eapply heap_inv_ext;
      [| | | |exact (heap_inv_clear_slot (index_of k) a s I Hp)]; reflexivity.
  - inv_bind H. apply load_item_Done in E as [-> _].
    destruct (decide (key a1 = k)).
    + inv_bind H. apply map_free_item_ret in E as (i & _ & _ & ->).
      inv_bind H. apply load_list_Done in E as [-> _].
      inv_bind H. pose proof E as E'.
      apply store_list_next_shrinks in E' as (B1 & N1 & _).
      apply store_list_next_ret in E as (n0 & _ & Hn0 & Heq).
      st_simpl_in Hn0.
      inv_bind H. apply load_list_Done in E as [-> _].
      inv_bind H. apply load_item_Done in E as [-> _].
      inv_bind H. unfold _map_create_item in E. injection E as <- <-.
      inv_bind H. apply set_items_Done in E. subst.
      inv_bind H. frame_as items E Et.
      apply list_free_shrinks in E. frame_as items H Hit. frame_heap H.
      (* the state in which the chain head is released *)
      match type of E with heap_shrinks ?st _ => set (mid := st) in * end.
      assert (heap_inv mid) as Imid.
      { pose proof (heap_inv_relink a0 n0 NULL s I Hn0) as I1.
        match type of I1 with heap_inv ?st => set (v1 := st) in * end.
        assert (items v1 !! index_of (key a1) = Some a) as Hp1 by exact Hp.
        pose proof (heap_inv_clear_slot (index_of (key a1)) a v1 I1 Hp1) as I2.
        match type of I2 with heap_inv ?st => set (v2 := st) in * end.
        pose proof (heap_inv_created (key a6) (value a6) v2 I2) as I3.
        pose proof (heap_inv_fill_slot (index_of (key a1)) (Z.pos (brk s)) _ I3) as I4.
        eapply heap_inv_ext; [| | | |apply I4].
        - subst mid v2 v1. unfold created. st_simpl.
          rewrite list_insert_insert_eq. reflexivity.
        - reflexivity.
        - reflexivity.
        - reflexivity.
        - discriminate.
        - subst v2 v1. unfold created. st_simpl. rewrite lookup_insert_eq. eauto.
        - subst v2 v1. unfold created. st_simpl. rewrite Pos2Z.inj_succ. lia.
        - apply (fresh_not_in_slots v2 I2).
        - apply (fresh_not_in_nodes v2 I2). }
      eapply heap_inv_ext; [| | | |exact (heap_inv_shrinks _ _ Imid E Et)];
        congruence.
    + inv_bind H. inversion E; subst a2 s0; clear E.
      pose proof H as Hit.
      apply (keeps_Done items) in Hit; [|apply keeps_walk; eauto with keeps].
      apply walk_shrinks in H.
      eapply heap_inv_shrinks; eassumption.
Qed.

Lemma create_heap_inv : heap_inv (final (lv_create_buf_map boot)).
Proof.
  constructor.
  - intros i p Hp Hn. apply lookup_replicate in Hp as [-> _]. contradiction.
  - intros i j p Hp _ Hn. apply lookup_replicate in Hp as [-> _]. contradiction.
  - intros i p Hp. apply lookup_replicate in Hp as [-> _]. reflexivity.
  - intros a n Ha. discriminate.
  - intros a n i Ha. discriminate.
Qed.

Lemma run_heap_inv cs : forall s s',
  heap_inv s -> run uninit sprintf_p cs s = Done tt s' -> heap_inv s'.
Proof.
  induction cs as [|c cs IH]; intros s s' I H; simpl in H.
  - inversion H; subst. exact I.
  - inv_bind H. destruct a. eapply IH; [|exact H].
    destruct c as [k v|k|k]; simpl in E.
    + eapply insert_heap_inv; eassumption.
    + inv_bind E. inversion E; subst s1.
      pose proof (search_keeps_state sprintf_p k s) as F.
      rewrite E0 in F. simpl in F. subst s0. exact I.
    + eapply free_item_heap_inv; eassumption.
Qed.

Lemma session_heap_inv cs s :
  session uninit sprintf_p cs = Done tt s -> heap_inv s.
Proof.
  unfold session. intros H. inv_bind H.
  inversion E; subst a s0; clear E.
  eapply run_heap_inv; [|exact H]. apply create_heap_inv.
Qed.

End HeapInvariant.

(** ** Helpers: calls on a bucket without chain *)

Section Chainless.
Variable uninit : ptr -> lv_list_t.
Variable sprintf_p : ptr -> string.
Local Abbreviation index_of := (index_of sprintf_p).

Lemma reachable_bucket cs s k :
  session uninit sprintf_p cs = Done tt s ->
  exists p h, items s !! index_of k = Some p /\
              overflow_list s !! index_of k = Some h.
Proof.
  intros H. apply session_inv in H as [I1 I2 I3 I4 I5].
  pose proof (index_of_lt sprintf_p k) as Hi.
  destruct (lookup_lt_is_Some_2 (items s) (index_of k)) as [p Hp]; [lia|].
  destruct (lookup_lt_is_Some_2 (overflow_list s) (index_of k)) as [h Hh]; [lia|].
  eauto.
Qed.

Lemma search_empty_slot k s :
  items s !! index_of k = Some NULL ->
  is_Some (overflow_list s !! index_of k) ->
  lv_search_buf_map sprintf_p k s = Done NULL s.
Proof.
  intros Hp [h Hh]. unfold lv_search_buf_map, bind, get_items, get_overflow_list.
  rewrite Hp, Hh. reflexivity.
Qed.

Lemma search_other_key k s p it :
  items s !! index_of k = Some p -> p <> NULL ->
  overflow_list s !! index_of k = Some NULL ->
  item_mem s !! p = Some it -> key it <> k ->
  lv_search_buf_map sprintf_p k s = Done NULL s.
Proof.
  intros Hp Hn Hh Hit Hk.
  unfold lv_search_buf_map, bind, get_items, get_overflow_list.
  rewrite Hp, Hh. destruct (decide (p = NULL)); [contradiction|].
  unfold load_item. rewrite cell_lookup by assumption. rewrite Hit.
  destruct (decide (key it = k)); [contradiction|].
  destruct (decide (NULL = NULL)); [reflexivity | contradiction].
Qed.

Lemma free_item_absent k s p :
  items s !! index_of k = Some p ->
  overflow_list s !! index_of k = Some NULL ->
  (p = NULL \/ exists it, item_mem s !! p = Some it /\ key it <> k) ->
  lv_free_item sprintf_p k s = Done tt s.
Proof.
  intros Hp Hh Hk. unfold lv_free_item, bind, get_items, get_overflow_list.
  rewrite Hp, Hh.
  destruct (decide (p = NULL)) as [|Hn]; [reflexivity|].
  destruct Hk as [|[it [Hit Hk]]]; [contradiction|].
  destruct (decide (NULL = NULL)); [|contradiction].
  unfold load_item. rewrite cell_lookup by assumption. rewrite Hit.
  destruct (decide (key it = k)); [contradiction | reflexivity].
Qed.

Lemma free_item_sole k v p s :
  items s !! index_of k = Some p ->
  p <> NULL ->
  overflow_list s !! index_of k = Some NULL ->
  item_mem s !! p = Some (MapItem k v) ->
  lv_free_item sprintf_p k s = Done tt (removed sprintf_p k v p s).
Proof.
  intros Hp Hn Hh Hit.
  unfold lv_free_item, bind, get_items, get_overflow_list.
  rewrite Hp, Hh.
  destruct (decide (p = NULL)); [contradiction|].
  destruct (decide (NULL = NULL)); [|contradiction].
  unfold load_item. rewrite cell_lookup by assumption. rewrite Hit. cbn [key].
  destruct (decide (k = k)); [|contradiction].
  unfold set_items. rewrite Hp.
  unfold _map_free_item, bind, load_item, emit, free_item. st_simpl.
  rewrite cell_lookup by assumption. rewrite Hit. st_simpl.
  rewrite cell_lookup by assumption. rewrite Hit.
  unfold get_count, set_count, removed. st_simpl.
  rewrite <- app_assoc. reflexivity.
Qed.

Lemma removed_slot k v p s :
  items s !! index_of k = Some p ->
  overflow_list s !! index_of k = Some NULL ->
  items (removed sprintf_p k v p s) !! index_of k = Some NULL /\
  overflow_list (removed sprintf_p k v p s) !! index_of k = Some NULL.
Proof.
  intros Hp Hh. unfold removed. st_simpl. split; [|exact Hh].
  apply list_lookup_insert_eq. eapply lookup_lt_Some. exact Hp.
Qed.

End Chainless.

(** ** [_list_free] ends *)

Lemma list_free_loop_ends fuel : forall l s w s',
  (size (list_mem s) < fuel)%nat ->
  _list_free_loop fuel l s = Abort w s' -> w = BadAccess.
Proof.
  induction fuel as [|fuel IH]; intros l s w s' Hsz H; [lia|].
  simpl in H. destruct (decide (l = NULL)); [discriminate|].
  unfold bind at 1 in H. unfold load_list in H.
  destruct (cell (list_mem s) l) as [t|] eqn:Hl; [|inversion H; reflexivity].
  unfold bind at 1 in H. unfold load_item in H.
  destruct (cell (item_mem s) (item t)) as [i|] eqn:Hi; [|inversion H; reflexivity].
  unfold bind at 1 2 3 in H. unfold emit, free_item in H. st_simpl.
  cbv [with_trace] in H. cbn [item_mem] in H. rewrite Hi in H.
  unfold bind at 1 in H. unfold free_list in H.
  cbv [with_item_mem] in H. cbn [list_mem] in H. rewrite Hl in H.
  apply IH in H; [exact H|].
  cbv [with_list_mem]. cbn [list_mem].
  apply cell_Some in Hl as [_ Hl].
  rewrite map_size_delete_Some by eauto.
  pose proof (map_size_ne_0_lookup_2 _ _ (ex_intro _ t Hl) : size (list_mem s) <> 0%nat).
  lia.
Qed.

(** X4: [_list_free] never loops for ever: from any state and for any
    pointer it either returns or stops at an invalid memory access (each
    round of its loop releases one node). *)
Theorem list_free_returns_or_faults l s :
  (exists s', _list_free l s = Done tt s') \/
  (exists s', _list_free l s = Abort BadAccess s').
Proof.
  destruct (_list_free l s) as [[] s'|w s'] eqn:E; [eauto|].
  right. exists s'. f_equal.
  unfold _list_free, bind, live_nodes in E.
  eapply list_free_loop_ends; [|exact E]. lia.
Qed.

(** ** Calls stay in their bucket *)

Lemma keeps_table_bucket {A} j (m : M A) : keeps_table m -> keeps (bucket j) m.
Proof.
  intros H s. specialize (H s). unfold table_view in H. unfold bucket. congruence.
Qed.

Lemma keeps_bucket_set_items i j p : i <> j -> keeps (bucket j) (set_items i p).
Proof.
  intros Hne s. unfold set_items, bucket. destruct (items s !! i); [|reflexivity].
  st_simpl. unfold final. st_simpl. rewrite list_lookup_insert_ne by assumption. reflexivity.
Qed.

Lemma keeps_bucket_set_overflow_list i j p :
  i <> j -> keeps (bucket j) (set_overflow_list i p).
Proof.
  intros Hne s. unfold set_overflow_list, bucket.
  destruct (overflow_list s !! i); [|reflexivity].
  unfold final. st_simpl. rewrite list_lookup_insert_ne by assumption. reflexivity.
Qed.

Lemma keeps_bucket_set_count j c : keeps (bucket j) (set_count c).
Proof. intros s. reflexivity. Qed.


(** ** Searching, removing and inserting in one bucket *)

Section OneBucket.
Variable uninit : ptr -> lv_list_t.
Variable sprintf_p : ptr -> string.
Local Abbreviation index_of := (index_of sprintf_p).

(** X1: [lv_search_buf_map] is read-only, whether it returns or not, and
    what it returns is NULL or the value of the item in the primary slot of
    the key's bucket, and then only if that item has the searched key. *)
Theorem search_reads_primary_only k s :
  final (lv_search_buf_map sprintf_p k s) = s /\
  forall v s', lv_search_buf_map sprintf_p k s = Done v s' ->
    v = NULL \/
    exists p it, items s !! index_of k = Some p /\ p <> NULL /\
      item_mem s !! p = Some it /\ key it = k /\ value it = v.
Proof.
  unfold lv_search_buf_map, bind, get_items, get_overflow_list.
  destruct (items s !! index_of k) as [p|] eqn:Hp; [|split; [reflexivity | discriminate]].
  destruct (overflow_list s !! index_of k) as [h|] eqn:Hh; [|split; [reflexivity | discriminate]].
  destruct (decide (p = NULL)) as [Hn|Hn].
  { split; [reflexivity|]. intros v s' E. inversion E. auto. }
  unfold load_item. destruct (cell (item_mem s) p) as [it|] eqn:Hc;
    [|split; [reflexivity | discriminate]].
  apply cell_Some in Hc as [_ Hc].
  destruct (decide (key it = k)) as [Hk|Hk].
  { split; [reflexivity|]. intros v s' E. inversion E; subst. right. eauto 10. }
  destruct (decide (h = NULL)).
  { split; [reflexivity|]. intros v s' E. inversion E. auto. }
  unfold load_list. destruct (cell (list_mem s) h);
    (split; [reflexivity|]); intros v s' E; inversion E; auto.
Qed.

(** X2: right after [lv_create_buf_map], whatever the state before,
    [count] is 0, a search for any key returns NULL and the removal of any
    key returns without changing anything. *)
Theorem fresh_table_is_empty s0 k :
  let s := final (lv_create_buf_map s0) in
  count s = 0 /\
  lv_search_buf_map sprintf_p k s = Done NULL s /\
  lv_free_item sprintf_p k s = Done tt s.
Proof.
  intros s. pose proof (index_of_lt sprintf_p k) as Hi.
  assert (items s !! index_of k = Some NULL) as Hp
    by (apply lookup_replicate; auto).
  assert (overflow_list s !! index_of k = Some NULL) as Hh
    by (apply lookup_replicate; auto).
  split; [reflexivity|]. split.
  - unfold lv_search_buf_map, bind, get_items, get_overflow_list.
    rewrite Hp, Hh. reflexivity.
  - unfold lv_free_item, bind, get_items, get_overflow_list.
    rewrite Hp, Hh. reflexivity.
Qed.

(** X3: in every state reached from [lv_create_buf_map] by returned calls
    and for every key, the index computed by [_map_hash_function] addresses
    a cell of [items] and of [overflow_list], and [count] lies between 0 and
    [HASH_TABLE_SIZE]. *)
Theorem reachable_bucket_in_bounds cs s k :
  session uninit sprintf_p cs = Done tt s ->
  (exists p h, items s !! index_of k = Some p /\
               overflow_list s !! index_of k = Some h) /\
  0 <= count s <= HASH_TABLE_SIZE.
Proof.
  intros H. split; [eapply reachable_bucket; exact H|].
  apply session_inv in H as [I1 I2 I3 I4 I5].
  pose proof (occupied_bounds (items s)). rewrite I4, I2 in *.
  unfold HASH_TABLE_SIZE in *. lia.
Qed.

(** X5: an insert or a removal of the key [k] changes neither the slot nor
    the chain head of any bucket other than the one [k] hashes to, whether
    the call returns or not. *)
Theorem calls_stay_in_their_bucket k v j s :
  j <> index_of k ->
  bucket j (final (lv_insert_buf_map uninit sprintf_p k v s)) = bucket j s /\
  bucket j (final (lv_free_item sprintf_p k s)) = bucket j s.
Proof.
  intros Hne.
  assert (forall p, keeps (bucket j) (set_items (index_of k) p)) as Hi
    by (intros; apply keeps_bucket_set_items; congruence).
  assert (forall p, keeps (bucket j) (set_overflow_list (index_of k) p)) as Ho
    by (intros; apply keeps_bucket_set_overflow_list; congruence).
  assert (forall A (m : M A), keeps_table m -> keeps (bucket j) m) as Ht
    by (intros; apply keeps_table_bucket; assumption).
  assert (forall c, keeps (bucket j) (set_count c)) as Hc
    by (intros; apply keeps_bucket_set_count).
  split.
  - assert (keeps (bucket j) (lv_insert_buf_map uninit sprintf_p k v)) as K; [|apply K].
    unfold lv_insert_buf_map, G2D_ASSERT_MSG, _handle_collision.
    repeat first [ apply Hi | apply Ho | apply Hc | keeps_step
                 | apply Ht; solve [eauto with keeps] ].
  - assert (keeps (bucket j) (lv_free_item sprintf_p k)) as K; [|apply K].
    unfold lv_free_item.
    repeat first [ apply Hi | apply Ho | apply Hc
                 | apply keeps_walk; [exact Ho | exact Ht]
                 | keeps_step
                 | apply Ht; solve [eauto with keeps] ].
Qed.

(** X6: removing the key of the only entry of a bucket (slot occupied by
    the key, no chain) returns with the slot cleared, [count] one lower and
    the item released together with its key and its resource, each once;
    afterwards a search for the key returns NULL and a second removal
    changes nothing. *)
Theorem remove_only_entry k v p s :
  items s !! index_of k = Some p ->
  p <> NULL ->
  overflow_list s !! index_of k = Some NULL ->
  item_mem s !! p = Some (MapItem k v) ->
  lv_free_item sprintf_p k s = Done tt (removed sprintf_p k v p s) /\
  trace (removed sprintf_p k v p s) = trace s ++ [LvFreeKey k; G2dFree v] /\
  count (removed sprintf_p k v p s) = count s - 1 /\
  items (removed sprintf_p k v p s) !! index_of k = Some NULL /\
  item_mem (removed sprintf_p k v p s) !! p = None /\
  lv_search_buf_map sprintf_p k (removed sprintf_p k v p s)
    = Done NULL (removed sprintf_p k v p s) /\
  lv_free_item sprintf_p k (removed sprintf_p k v p s)
    = Done tt (removed sprintf_p k v p s).
Proof.
  intros Hp Hn Hh Hit.
  destruct (removed_slot sprintf_p k v p s Hp Hh) as [Hp' Hh'].
  split; [apply free_item_sole; assumption|].
  split; [reflexivity|]. split; [reflexivity|]. split; [exact Hp'|].
  split; [unfold removed; st_simpl; apply lookup_delete_eq|]. split.
  - apply search_empty_slot; [exact Hp' | rewrite Hh'; eauto].
  - apply (free_item_absent sprintf_p k _ NULL); auto.
Qed.

(** X7: the first colliding insert into a bucket (slot occupied by another
    key of the bucket, no chain yet) returns with the new item in a fresh
    chain head whose [next] field is whatever the allocator left there;
    nothing is released, [count] and the slots are unchanged, a search for
    the new key returns NULL and a search for the key in the slot still
    returns its value. *)
Theorem first_collision_starts_chain k v p key0 v0 s :
  items s !! index_of k = Some p ->
  p <> NULL ->
  item_mem s !! p = Some (MapItem key0 v0) ->
  key0 <> k ->
  index_of key0 = index_of k ->
  overflow_list s !! index_of k = Some NULL ->
  item_mem s !! Z.pos (brk s) = None ->
  lv_insert_buf_map uninit sprintf_p k v s = Done tt (chained uninit sprintf_p k v s) /\
  trace (chained uninit sprintf_p k v s) = trace s /\
  count (chained uninit sprintf_p k v s) = count s /\
  items (chained uninit sprintf_p k v s) = items s /\
  lv_search_buf_map sprintf_p k (chained uninit sprintf_p k v s) = Done NULL (chained uninit sprintf_p k v s) /\
  lv_search_buf_map sprintf_p key0 (chained uninit sprintf_p k v s) = Done v0 (chained uninit sprintf_p k v s).
Proof.
  intros Hp Hn Hit Hk Hidx Hh Hfresh.
  assert (Z.pos (brk s) <> p) as Hne by congruence.
  pose proof (lookup_lt_Some _ _ _ Hh) as Hlt.
  assert (cell (item_mem (chained uninit sprintf_p k v s)) p = Some (MapItem key0 v0)) as Hc.
  { unfold chained, created. st_simpl. rewrite cell_lookup by assumption.
    rewrite lookup_insert_ne by assumption. exact Hit. }
  assert (overflow_list (chained uninit sprintf_p k v s) !! index_of k
          = Some (Z.pos (Pos.succ (brk s)))) as Hh'.
  { unfold chained. st_simpl. apply list_lookup_insert_eq. assumption. }
  split; [|split; [|split; [|split; [|split]]]]; try reflexivity.
  - rewrite (insert_occupied_slot uninit sprintf_p k v s p) by assumption.
    unfold bind at 1. unfold load_item, created. st_simpl.
    rewrite cell_lookup by assumption.
    rewrite lookup_insert_ne by assumption. rewrite Hit. cbn [key].
    destruct (decide (key0 = k)); [contradiction|].
    unfold _handle_collision, bind, get_overflow_list. st_simpl. rewrite Hh.
    destruct (decide (NULL = NULL)); [|contradiction].
    unfold _list_alloc, store_list_item, bind, load_list, store_list. st_simpl.
    rewrite cell_lookup by discriminate. rewrite lookup_insert_eq. st_simpl.
    rewrite cell_lookup by discriminate. rewrite lookup_insert_eq.
    unfold set_overflow_list. st_simpl. rewrite Hh.
    unfold chained, created. st_simpl.
    rewrite insert_insert_eq. reflexivity.
  - unfold lv_search_buf_map, bind, get_items, get_overflow_list.
    change (items (chained uninit sprintf_p k v s)) with (items s). rewrite Hp, Hh'.
    destruct (decide (p = NULL)); [contradiction|].
    unfold load_item. rewrite Hc. cbn [key].
    destruct (decide (key0 = k)); [contradiction|].
    destruct (decide (Z.pos (Pos.succ (brk s)) = NULL)); [discriminate|].
    unfold load_list, chained. st_simpl.
    rewrite cell_lookup by discriminate. rewrite lookup_insert_eq. reflexivity.
  - apply (search_primary sprintf_p key0 v0 _ p).
    + rewrite Hidx. exact Hp.
    + rewrite Hidx, Hh'. eauto.
    + exact Hc.
Qed.

End OneBucket.

(** ** Reachable states *)

Section Reachable.
Variable uninit : ptr -> lv_list_t.
Variable sprintf_p : ptr -> string.
Local Abbreviation index_of := (index_of sprintf_p).

(** X8: in every state reached from [lv_create_buf_map] by returned calls,
    an occupied primary slot points to an allocated item, no other slot
    points to that item, and no list node does. *)
Theorem reachable_slots_are_allocated cs s i p :
  session uninit sprintf_p cs = Done tt s ->
  items s !! i = Some p -> p <> NULL ->
  (exists it, item_mem s !! p = Some it) /\
  (forall j, items s !! j = Some p -> j = i) /\
  (forall a n, list_mem s !! a = Some n -> item n <> p).
Proof.
  intros H Hp Hn. apply session_heap_inv in H as [H1 H2 H3 H4 H5].
  split; [exact (H1 i p Hp Hn)|]. split.
  - intros j Hj. eauto.
  - intros a n Ha E. subst p. apply Hn. eauto.
Qed.


(** X10: in every reachable state the removal of a key whose bucket has no
    chain returns; it changes nothing unless the slot holds the key, in
    which case the entry is removed; afterwards a search for the key
    returns NULL and a repeated removal changes nothing. *)
Theorem reachable_remove_without_chain cs s k :
  session uninit sprintf_p cs = Done tt s ->
  overflow_list s !! index_of k = Some NULL ->
  exists s', lv_free_item sprintf_p k s = Done tt s' /\
    (s' = s \/
     exists v p, items s !! index_of k = Some p /\
       item_mem s !! p = Some (MapItem k v) /\
       s' = removed sprintf_p k v p s) /\
    lv_search_buf_map sprintf_p k s' = Done NULL s' /\
    lv_free_item sprintf_p k s' = Done tt s'.
Proof.
  intros H Hh.
  destruct (reachable_bucket uninit sprintf_p cs s k H) as (p & h & Hp & Hh').
  rewrite Hh in Hh'. injection Hh' as <-.
  apply session_heap_inv in H as [H1 _ _ _ _].
  destruct (decide (p = NULL)) as [->|Hn].
  - exists s. split; [|split; [auto|split]].
    + apply (free_item_absent sprintf_p k s NULL); auto.
    + apply search_empty_slot; [exact Hp | rewrite Hh; eauto].
    + apply (free_item_absent sprintf_p k s NULL); auto.
  - destruct (H1 _ _ Hp Hn) as [it Hit].
    destruct (decide (key it = k)) as [Hk|Hk].
    + destruct it as [k0 v0]. simpl in Hk. subst k0.
      destruct (removed_slot sprintf_p k v0 p s Hp Hh) as [Hp' Hh'].
      exists (removed sprintf_p k v0 p s). split; [|split; [|split]].
      * apply free_item_sole; assumption.
      * right. eauto.
      * apply search_empty_slot; [exact Hp' | rewrite Hh'; eauto].
      * apply (free_item_absent sprintf_p k _ NULL); auto.
    + exists s. split; [|split; [auto|split]].
      * apply (free_item_absent sprintf_p k s p); eauto.
      * eapply search_other_key; eassumption.
      * apply (free_item_absent sprintf_p k s p); eauto.
Qed.

End Reachable.

(** ** [lv_free_buf_map] on a table without chains *)

Lemma list_free_NULL s : _list_free NULL s = Done tt s.
Proof. reflexivity. Qed.

Lemma free_lists_NULL n : forall i s,
  (forall j h, overflow_list s !! j = Some h -> h = NULL) ->
  (i + n <= length (overflow_list s))%nat ->
  free_lists (seq i n) s = Done tt s.
Proof.
  induction n as [|n IH]; intros i s Hnull Hlen; simpl; [reflexivity|].
  unfold bind at 1. unfold get_overflow_list.
  destruct (lookup_lt_is_Some_2 (overflow_list s) i) as [h Hh]; [lia|].
  rewrite Hh. rewrite (Hnull _ _ Hh).
  unfold bind at 1. rewrite list_free_NULL. apply IH; [assumption | lia].
Qed.

Lemma release_of_delete m p q :
  q <> p -> release_of (delete p m) q = release_of m q.
Proof.
  intros Hne. unfold release_of, cell.
  destruct (decide (q = NULL)); [reflexivity|].
  rewrite lookup_delete_ne by congruence. reflexivity.
Qed.

Lemma free_slots_run n : forall i s,
  (i + n = length (items s))%nat ->
  (forall j p, items s !! j = Some p -> p <> NULL -> (i <= j)%nat ->
     is_Some (item_mem s !! p)) ->
  (forall j1 j2 p, items s !! j1 = Some p -> items s !! j2 = Some p ->
     p <> NULL -> j1 = j2) ->
  exists s', free_slots (seq i n) s = Done tt s' /\
    trace s' = trace s ++ flat_map (release_of (item_mem s)) (drop i (items s)) /\
    items s' = items s /\ overflow_list s' = overflow_list s /\
    tsize s' = tsize s /\ list_mem s' = list_mem s.
Proof.
  induction n as [|n IH]; intros i s Hlen Hlive Hinj; simpl.
  - exists s. rewrite drop_ge by lia. simpl. rewrite app_nil_r. auto 10.
  - destruct (lookup_lt_is_Some_2 (items s) i) as [p Hp]; [lia|].
    rewrite (drop_S _ _ _ Hp). simpl.
    unfold bind at 1. unfold get_items. rewrite Hp.
    destruct (decide (p = NULL)) as [->|Hn].
    + unfold bind at 1. unfold ret.
      destruct (IH (S i) s) as (s' & Hrun & Htr & Hrest); [lia| |exact Hinj|].
      { intros j q Hq Hqn Hj. apply (Hlive j q Hq Hqn). lia. }
      exists s'. split; [exact Hrun|]. split; [|exact Hrest].
      rewrite Htr. unfold release_of at 2. unfold cell.
      destruct (decide (NULL = NULL)); [reflexivity | contradiction].
    + destruct (Hlive i p Hp Hn) as [it Hit]; [lia|].
      unfold bind at 1.
      assert (_map_free_item p s = Done tt
                (with_item_mem (delete p (item_mem s))
                   (with_trace (trace s ++ [LvFreeKey (key it); G2dFree (value it)]) s)))
        as Hfree.
      { unfold _map_free_item, bind, load_item, emit, free_item. st_simpl.
        rewrite cell_lookup by assumption. rewrite Hit. st_simpl.
        rewrite cell_lookup by assumption. rewrite Hit.
        rewrite <- app_assoc. reflexivity. }
      rewrite Hfree.
      match goal with |- context [free_slots _ ?st] => set (s1 := st) end.
      destruct (IH (S i) s1) as (s' & Hrun & Htr & Hrest);
        [subst s1; st_simpl; lia| |exact Hinj|].
      { intros j q Hq Hqn Hj. subst s1. st_simpl. st_simpl_in Hq.
        rewrite lookup_delete_ne.
        - apply (Hlive j q Hq Hqn). lia.
        - intros <-. specialize (Hinj i j p Hp Hq Hn). lia. }
      exists s'. split; [exact Hrun|]. split; [|exact Hrest].
      rewrite Htr. subst s1. st_simpl. rewrite <- app_assoc.
      f_equal. unfold release_of at 2. rewrite cell_lookup by assumption.
      rewrite Hit. simpl. do 2 f_equal.
      rewrite !flat_map_concat_map. f_equal.
      apply map_ext_in. intros q Hq.
      apply release_of_delete. intros ->.
      apply list_elem_of_In, list_elem_of_lookup in Hq as [j Hj].
      rewrite lookup_drop in Hj.
      specialize (Hinj i (S i + j)%nat p Hp Hj Hn). lia.
Qed.

Section Teardown.
Variable uninit : ptr -> lv_list_t.
Variable sprintf_p : ptr -> string.

(** X11: on a reachable table in which no bucket has a chain,
    [lv_free_buf_map] returns and releases the key and the resource of the
    item of every occupied slot, each exactly once and in slot order, and
    nothing else. *)
Theorem teardown_without_chains cs s :
  session uninit sprintf_p cs = Done tt s ->
  overflow_list s = replicate (Z.to_nat HASH_TABLE_SIZE) NULL ->
  exists s', lv_free_buf_map s = Done tt s' /\
    trace s' = trace s ++ slot_releases s /\
    items s' = [] /\ overflow_list s' = [].
Proof.
  intros H Hrep.
  assert (forall i h, overflow_list s !! i = Some h -> h = NULL) as Hnull.
  { intros i h Hh. rewrite Hrep in Hh. apply lookup_replicate in Hh as [-> _].
    reflexivity. }
  pose proof (session_inv uninit sprintf_p cs s H) as [I1 I2 I3 _ _].
  pose proof (session_heap_inv uninit sprintf_p cs s H) as [H1 H2 _ _ _].
  destruct (free_slots_run (Z.to_nat HASH_TABLE_SIZE) 0 s) as
    (s1 & Hrun & Htr & Hit & Hov & Hsz & _); [lia| |exact H2|].
  { intros j p Hp Hn _. eauto. }
  unfold lv_free_buf_map, _free_overflow_list, bind, get_size.
  rewrite I1, Hrun, Hsz, I1.
  rewrite free_lists_NULL; [| rewrite Hov; exact Hnull | rewrite Hov; lia].
  eexists. split; [reflexivity|]. st_simpl. rewrite Htr. auto.
Qed.

End Teardown.

(** ** Chains *)

Lemma chain_functional m : forall l1 l2 p,
  chain m p l1 -> chain m p l2 -> l1 = l2.
Proof.
  induction l1 as [|[a1 i1] l1 IH]; intros [|[a2 i2] l2] p H1 H2; simpl in *.
  - reflexivity.
  - destruct H2 as (-> & Hn & _). contradiction.
  - destruct H1 as (-> & Hn & _). contradiction.
  - destruct H1 as (-> & _ & nx1 & Hm1 & Hc1).
    destruct H2 as (<- & _ & nx2 & Hm2 & Hc2).
    rewrite Hm1 in Hm2. injection Hm2 as <- <-.
    f_equal. eapply IH; eassumption.
Qed.

Lemma chain_suffix m : forall l1 l2 p,
  chain m p (l1 ++ l2) -> exists q, chain m q l2.
Proof.
  induction l1 as [|[a i] l1 IH]; intros l2 p H; simpl in H; [eauto|].
  destruct H as (_ & _ & nx & _ & Hc). eapply IH. exact Hc.
Qed.

Lemma chain_head m p a it rest :
  chain m p ((a, it) :: rest) -> p = a /\ a <> NULL /\ is_Some (m !! a).
Proof. simpl. intros (-> & Hn & nx & Hm & _). eauto. Qed.

Lemma chain_NoDup m : forall l p, chain m p l -> NoDup (map fst l).
Proof.
  induction l as [|[a i] l IH]; intros p H; simpl; [constructor|].
  pose proof H as (-> & Hn & nx & Hm & Hc). constructor; [|eauto].
  intros Hin. apply list_elem_of_fmap in Hin as ([a' i'] & Ha & Hin).
  simpl in Ha. subst a'.
  apply list_elem_of_split in Hin as (l1 & l2 & ->).
  destruct (chain_suffix m l1 ((a, i') :: l2) nx Hc) as [q Hq].
  pose proof Hq as (-> & _ & nx' & Hm' & Hc').
  rewrite Hm in Hm'. injection Hm' as <- <-.
  pose proof (chain_functional m _ _ _ Hc Hc') as E.
  apply (f_equal (@length _)) in E. rewrite length_app in E. simpl in E. lia.
Qed.

Lemma chain_mapped m : forall l p a,
  chain m p l -> a ∈ map fst l -> is_Some (m !! a).
Proof.
  induction l as [|[b i] l IH]; intros p a H Hin; simpl in *.
  - apply elem_of_nil in Hin. contradiction.
  - destruct H as (-> & _ & nx & Hm & Hc).
    apply elem_of_cons in Hin as [->|Hin]; eauto.
Qed.

Lemma chain_length m l p : chain m p l -> (length l <= size m)%nat.
Proof.
  intros H. pose proof (chain_NoDup m l p H) as Hnd.
  rewrite <- (length_map fst l), <- (size_list_to_set (C := gset Z)) by assumption.
  rewrite <- size_dom. apply subseteq_size. intros a Ha.
  apply elem_of_list_to_set in Ha. apply elem_of_dom.
  eapply chain_mapped; eassumption.
Qed.

(** Updates away from the nodes of a chain leave it as it is. *)
Lemma chain_insert_other m b n : forall l p,
  chain m p l -> b ∉ map fst l -> chain (<[b := n]> m) p l.
Proof.
  induction l as [|[a i] l IH]; intros p H Hb; simpl in *; [exact H|].
  destruct H as (-> & Hn & nx & Hm & Hc).
  apply not_elem_of_cons in Hb as [Hne Hb].
  split; [reflexivity|]. split; [exact Hn|]. exists nx.
  rewrite lookup_insert_ne by congruence. auto.
Qed.

(** The walk of [_list_insert] stops at the node before the last. *)
Lemma list_insert_seek_chain s a1 i1 a2 i2 : forall l fuel temp,
  chain (list_mem s) temp (l ++ [(a1, i1); (a2, i2)]) ->
  (length l < fuel)%nat ->
  _list_insert_seek fuel temp s = Done a1 s.
Proof.
  induction l as [|[a i] l IH]; intros fuel temp H Hf;
    (destruct fuel as [|fuel]; [lia|]); simpl in H |- *.
  - destruct H as (-> & Hn1 & nx & Hm1 & -> & Hn2 & nx2 & Hm2 & ->).
    unfold bind, load_list. rewrite cell_lookup by assumption. rewrite Hm1.
    cbn [next]. rewrite cell_lookup by assumption. rewrite Hm2. cbn [next].
    destruct (decide (NULL = NULL)); [reflexivity | contradiction].
  - destruct H as (-> & Hn & nx & Hm & Hc).
    assert (exists b j rest, l ++ [(a1, i1); (a2, i2)] = (b, j) :: rest /\ rest <> [])
      as (b & j & rest & El & Hrest).
    { destruct l as [|[b j] l]; simpl; eauto 8.
      eexists _, _, _. split; [reflexivity|]. destruct l; discriminate. }
    rewrite El in Hc. pose proof Hc as (-> & Hnb & nxb & Hmb & Hcb).
    destruct rest as [|[c jc] rest]; [contradiction|].
    pose proof Hcb as (-> & Hnc & _).
    unfold bind at 1. unfold load_list. rewrite cell_lookup by assumption.
    rewrite Hm. cbn [next]. unfold bind at 1.
    rewrite cell_lookup by assumption. rewrite Hmb. cbn [next].
    destruct (decide (c = NULL)); [contradiction|].
    apply IH; [|simpl in Hf; lia]. rewrite El. exact Hc.
Qed.

(** ** [_list_insert] *)

Section ListInsert.
Variable uninit : ptr -> lv_list_t.

Lemma new_node_run it s :
  new_node uninit it s =
  Done (Z.pos (brk s))
    (with_list_mem (<[Z.pos (brk s) := ListNode it NULL]> (list_mem s))
       (with_brk (Pos.succ (brk s)) s)).
Proof.
  unfold new_node, bind, _list_alloc, store_list_item, store_list_next, bind,
    load_list, store_list. st_simpl.
  rewrite cell_lookup by discriminate. rewrite lookup_insert_eq. st_simpl.
  rewrite cell_lookup by discriminate. rewrite lookup_insert_eq. st_simpl.
  rewrite cell_lookup by discriminate. rewrite lookup_insert_eq. st_simpl.
  rewrite cell_lookup by discriminate. rewrite lookup_insert_eq. st_simpl.
  rewrite !insert_insert_eq. reflexivity.
Qed.

Lemma link_run (r : ptr) a i nx it s :
  a <> NULL -> list_mem s !! a = Some (ListNode i nx) ->
  list_mem s !! Z.pos (brk s) = None ->
  (let* node := new_node uninit it in
   let* _ := store_list_next a node in ret r) s = Done r (linked a i it s).
Proof.
  intros Hn Hm Hfresh. assert (Z.pos (brk s) <> a) as Hne by congruence.
  unfold bind at 1. rewrite new_node_run.
  unfold bind, store_list_next, bind, load_list, store_list. st_simpl.
  rewrite cell_lookup by assumption. rewrite lookup_insert_ne by assumption.
  rewrite Hm. st_simpl.
  rewrite cell_lookup by assumption. rewrite lookup_insert_ne by assumption.
  rewrite Hm. reflexivity.
Qed.

(** X12: [_list_insert] appends the new node to a chain of one node, but
    on a chain of two or more nodes it overwrites the link to the last
    node: the new node takes the place of the last one, which stays
    allocated and is no longer part of the chain. *)
Theorem list_insert_appends_or_replaces it s h l a1 i1 :
  list_mem s !! Z.pos (brk s) = None ->
  (chain (list_mem s) h [(a1, i1)] ->
     _list_insert uninit h it s = Done h (linked a1 i1 it s) /\
     chain (list_mem (linked a1 i1 it s)) h [(a1, i1); (Z.pos (brk s), it)]) /\
  (forall a2 i2,
     chain (list_mem s) h (l ++ [(a1, i1); (a2, i2)]) ->
     _list_insert uninit h it s = Done h (linked a1 i1 it s) /\
     chain (list_mem (linked a1 i1 it s)) h (l ++ [(a1, i1); (Z.pos (brk s), it)]) /\
     list_mem (linked a1 i1 it s) !! a2 = Some (ListNode i2 NULL)).
Proof.
  intros Hfresh.
  assert (forall a i nx, a <> NULL -> list_mem s !! a = Some (ListNode i nx) ->
            chain (list_mem (linked a i it s)) a [(a, i); (Z.pos (brk s), it)])
    as Htail.
  { intros a i nx Hn Hm. assert (Z.pos (brk s) <> a) as Hne by congruence.
    unfold linked. st_simpl. simpl.
    split; [reflexivity|]. split; [exact Hn|]. eexists.
    rewrite lookup_insert_eq. split; [reflexivity|].
    split; [reflexivity|]. split; [discriminate|]. exists NULL.
    rewrite lookup_insert_ne by congruence. rewrite lookup_insert_eq. auto. }
  split.
  - simpl. intros (-> & Hn & nx & Hm & ->). split; [|eapply Htail; eassumption].
    unfold _list_insert. destruct (decide (a1 = NULL)); [contradiction|].
    unfold bind at 1. unfold load_list. rewrite cell_lookup by assumption.
    rewrite Hm. cbn [next]. destruct (decide (NULL = NULL)); [|contradiction].
    eapply link_run; eassumption.
  - intros a2 i2 Hc.
    pose proof (chain_NoDup _ _ _ Hc) as Hnd.
    pose proof (chain_length _ _ _ Hc) as Hlen.
    destruct (chain_suffix _ l _ _ Hc) as [q Hq].
    pose proof Hq as (-> & Hn1 & nx1 & Hm1 & -> & Hn2 & nx2 & Hm2 & ->).
    rewrite map_app, length_app in *. simpl in Hnd, Hlen.
    apply NoDup_app in Hnd as (Hnd1 & Hdisj & Hnd2).
    apply NoDup_cons in Hnd2 as [Hne12 _].
    assert (Z.pos (brk s) <> a1) as Hf1 by congruence.
    assert (Z.pos (brk s) <> a2) as Hf2 by congruence.
    assert (a1 <> a2) as H12.
    { intros ->. apply Hne12. apply elem_of_cons. auto. }
    split; [|split].
    + unfold _list_insert.
      assert (exists b j rest, l ++ [(a1, i1); (a2, i2)] = (b, j) :: (rest : list (ptr * ptr))
                /\ rest <> []) as (b & j & rest & El & Hrest).
      { destruct l as [|[b j] l]; simpl; eauto 8.
        eexists _, _, _. split; [reflexivity|]. destruct l; discriminate. }
      pose proof Hc as Hc'. rewrite El in Hc'.
      pose proof Hc' as (-> & Hnb & nxb & Hmb & Hcb).
      destruct rest as [|[c jc] rest]; [contradiction|].
      pose proof Hcb as (-> & Hnc & _).
      destruct (decide (b = NULL)); [contradiction|].
      unfold bind at 1. unfold load_list. rewrite cell_lookup by assumption.
      rewrite Hmb. cbn [next]. destruct (decide (c = NULL)); [contradiction|].
      unfold bind at 1 2. unfold live_nodes.
      rewrite (list_insert_seek_chain s a1 i1 a2 i2 l _ b Hc) by lia.
      eapply link_run; eassumption.
    + clear Hlen. revert h Hc. induction l as [|[b j] l IH]; intros h Hc.
      * simpl in Hc. destruct Hc as (-> & _). eapply Htail; eassumption.
      * simpl in Hc |- *. destruct Hc as (-> & Hnb & nxb & Hmb & Hcb).
        simpl in Hnd1, Hdisj. apply NoDup_cons in Hnd1 as [Hbl Hnd1].
        assert (b <> a1) as Hb1.
        { intros ->. eapply (Hdisj a1); apply elem_of_cons; auto. }
        assert (Z.pos (brk s) <> b) as Hfb by congruence.
        split; [reflexivity|]. split; [exact Hnb|]. exists nxb. split.
        -- unfold linked. st_simpl. rewrite !lookup_insert_ne by congruence.
           exact Hmb.
        -- apply IH; [exact Hnd1 | | exact Hcb].
           intros x Hx. apply Hdisj. apply elem_of_cons. auto.
    + unfold linked. st_simpl. rewrite !lookup_insert_ne by congruence.
      exact Hm2.
Qed.

End ListInsert.

(** ** The hash *)

Lemma code_sum_nonneg l : 0 <= code_sum l.
Proof. induction l as [|c l IH]; simpl; lia. Qed.

Lemma code_sum_Permutation l1 l2 :
  Permutation l1 l2 -> code_sum l1 = code_sum l2.
Proof. induction 1; simpl; lia. Qed.

Lemma sum_chars_code_sum str : forall i,
  0 <= i < 2 ^ 64 ->
  Forall (fun c => nat_of_ascii c <> 0%nat) (list_ascii_of_string str) ->
  sum_chars str i = (i + code_sum (list_ascii_of_string str)) mod 2 ^ 64.
Proof.
  induction str as [|c str IH]; intros i Hi Hnul; simpl.
  - rewrite Z.add_0_r, Z.mod_small by lia. reflexivity.
  - inversion Hnul as [|? ? Hc Hrest]; subst.
    destruct (nat_of_ascii c =? 0)%nat eqn:E.
    + apply Nat.eqb_eq in E. contradiction.
    + rewrite IH; [| apply Z.mod_pos_bound; lia | assumption].
      rewrite Zplus_mod_idemp_l. f_equal. lia.
Qed.

Section Hash.
Variable sprintf_p : ptr -> string.

(** X13: for a pointer text without NUL characters the hash is the sum of
    the character codes, reduced modulo 2^64 and then modulo
    [HASH_TABLE_SIZE]; so two keys whose texts are permutations of each
    other always land in the same bucket. *)
Theorem hash_of_anagrams_collide k1 k2 :
  Forall (fun c => nat_of_ascii c <> 0%nat) (list_ascii_of_string (sprintf_p k1)) ->
  Permutation (list_ascii_of_string (sprintf_p k1))
              (list_ascii_of_string (sprintf_p k2)) ->
  _map_hash_function sprintf_p k1 =
    (code_sum (list_ascii_of_string (sprintf_p k1)) mod 2 ^ 64) mod HASH_TABLE_SIZE /\
  _map_hash_function sprintf_p k1 = _map_hash_function sprintf_p k2.
Proof.
  intros Hnul Hperm.
  assert (Forall (fun c => nat_of_ascii c <> 0%nat)
            (list_ascii_of_string (sprintf_p k2))) as Hnul2.
  { eapply Permutation_Forall; eassumption. }
  unfold _map_hash_function.
  rewrite !sum_chars_code_sum by (assumption || lia).
  rewrite !Z.add_0_l. split; [reflexivity|].
  rewrite (code_sum_Permutation _ _ Hperm). reflexivity.
Qed.

End Hash.


(** ** [_list_remove] *)

(** X14: [_list_remove] never hands back an item: on NULL and on a chain of
    one node it returns NULL and changes nothing, and on a longer chain it
    cuts the link of the first node and then stops at an invalid access,
    the [memcpy] from NULL. *)
Theorem list_remove_returns_no_item list s :
  (list = NULL -> _list_remove list s = Done NULL s) /\
  (forall i, list <> NULL -> list_mem s !! list = Some (ListNode i NULL) ->
     _list_remove list s = Done NULL s) /\
  (forall i nx, list <> NULL -> list_mem s !! list = Some (ListNode i nx) ->
     nx <> NULL ->
     _list_remove list s =
     Abort BadAccess
       (with_list_mem (<[list := ListNode i NULL]> (list_mem s)) s)) /\
  (forall r s', _list_remove list s = Done r s' -> r = NULL /\ s' = s).
Proof.
  split; [|split; [|split]].
  - intros ->. reflexivity.
  - intros i Hn Hm. unfold _list_remove.
    destruct (decide (list = NULL)); [contradiction|].
    unfold bind, load_list. rewrite cell_lookup by assumption. rewrite Hm.
    reflexivity.
  - intros i nx Hn Hm Hnx. unfold _list_remove.
    destruct (decide (list = NULL)); [contradiction|].
    unfold bind at 1. unfold load_list at 1. rewrite cell_lookup by assumption.
    rewrite Hm. cbn [next]. destruct (decide (nx = NULL)); [contradiction|].
    unfold bind, store_list_next, bind, load_list, store_list.
    rewrite cell_lookup by assumption. rewrite Hm. st_simpl.
    rewrite cell_lookup by assumption. rewrite Hm. st_simpl.
    rewrite cell_lookup by assumption. rewrite lookup_insert_eq.
    reflexivity.
  - intros r s' H. unfold _list_remove in H.
    destruct (decide (list = NULL)); [inversion H; auto|].
    inv_bind H. apply load_list_Done in E as [-> _].
    destruct (decide (next a = NULL)); [inversion H; auto|].
    inv_bind H. inv_bind H. inv_bind H.
    unfold load_item in E1. simpl in E1. discriminate.
Qed.

(** ** [print_table] *)

Lemma print_slots_run s n : forall i,
  (i + n = length (items s))%nat ->
  (forall j p, items s !! j = Some p -> p <> NULL -> is_Some (item_mem s !! p)) ->
  exists rows, print_slots (seq i n) s = Done rows s /\
    Z.of_nat (length rows) = occupied (drop i (items s)) /\
    forall j k v, LogSlot j k v ∈ rows <->
      (i <= j)%nat /\ exists p, items s !! j = Some p /\ p <> NULL /\
                        item_mem s !! p = Some (MapItem k v).
Proof.
  induction n as [|n IH]; intros i Hlen Hlive; simpl.
  - exists []. rewrite drop_ge by lia. split; [reflexivity|]. split; [reflexivity|].
    intros j k v. split.
    + intros H. apply elem_of_nil in H. contradiction.
    + intros (Hj & p & Hp & _). apply lookup_lt_Some in Hp. lia.
  - destruct (lookup_lt_is_Some_2 (items s) i) as [p Hp]; [lia|].
    destruct (IH (S i)) as (rows & Hrun & Hcount & Hrows); [lia | exact Hlive|].
    rewrite (drop_S _ _ _ Hp). simpl.
    unfold bind at 1. unfold get_items. rewrite Hp.
    destruct (decide (p = NULL)) as [->|Hn].
    + unfold bind, ret. unfold bind in Hrun. rewrite Hrun.
      exists rows. split; [reflexivity|]. split; [lia|].
      intros j k v. rewrite Hrows. split.
      * intros (Hj & Hex). split; [lia | exact Hex].
      * intros (Hj & q & Hq & Hqn & Hm). split; [|eauto].
        destruct (decide (j = i)) as [->|]; [|lia].
        rewrite Hp in Hq. injection Hq as <-. contradiction.
    + destruct (Hlive i p Hp Hn) as [[k0 v0] Hit].
      unfold bind, load_item, ret. rewrite cell_lookup by assumption.
      rewrite Hit. unfold bind in Hrun. rewrite Hrun. cbn [key value].
      exists (LogSlot i k0 v0 :: rows). split; [reflexivity|]. split.
      * simpl length. lia.
      * intros j k v. rewrite elem_of_cons, Hrows. split.
        -- intros [E|(Hj & Hex)].
           ++ injection E as -> -> ->. split; [lia|]. eauto.
           ++ split; [lia | exact Hex].
        -- intros (Hj & q & Hq & Hqn & Hm).
           destruct (decide (j = i)) as [->|].
           ++ left. rewrite Hp in Hq. injection Hq as <-.
              rewrite Hit in Hm. injection Hm as -> ->. reflexivity.
           ++ right. split; [lia|]. eauto.
Qed.

Section PrintTable.
Variable uninit : ptr -> lv_list_t.
Variable sprintf_p : ptr -> string.

(** X15: on a reachable table [print_table] returns without changing the
    state; between header and footer it logs one line per occupied primary
    slot, [count] lines in all, each with the slot's index, key and value;
    entries of the chains are not logged. *)
Theorem print_table_lists_primary_slots cs s :
  session uninit sprintf_p cs = Done tt s ->
  exists rows,
    print_table s =
      Done (LogText table_header :: rows ++ [LogText table_footer]) s /\
    Z.of_nat (length rows) = count s /\
    forall j k v, LogSlot j k v ∈ rows <->
      exists p, items s !! j = Some p /\ p <> NULL /\
                item_mem s !! p = Some (MapItem k v).
Proof.
  intros H.
  pose proof (session_inv uninit sprintf_p cs s H) as [I1 I2 _ I4 _].
  pose proof (session_heap_inv uninit sprintf_p cs s H) as [H1 _ _ _ _].
  destruct (print_slots_run s (Z.to_nat HASH_TABLE_SIZE) 0%nat) as
    (rows & Hrun & Hcount & Hrows); [lia | exact H1 |].
  exists rows. split; [|split].
  - unfold print_table, bind, get_size. rewrite I1. unfold bind in Hrun.
    rewrite Hrun. reflexivity.
  - rewrite Hcount, I4. reflexivity.
  - intros j k v. rewrite Hrows. split.
    + intros [_ Hex]. exact Hex.
    + intros Hex. split; [lia | exact Hex].
Qed.

End PrintTable.

(** ** Promotion and round trip *)

Section Promotion.
Variable sprintf_p : ptr -> string.
Local Abbreviation index_of := (index_of sprintf_p).

Lemma list_free_single h hi k2 v2 s :
  h <> NULL -> hi <> NULL ->
  list_mem s !! h = Some (ListNode hi NULL) ->
  item_mem s !! hi = Some (MapItem k2 v2) ->
  _list_free h s =
  Done tt (with_list_mem (delete h (list_mem s))
             (with_item_mem (delete hi (item_mem s))
                (with_trace (trace s ++ [LvFreeKey k2; G2dFree v2]) s))).
Proof.
  intros Hh Hhi Hm Hi. unfold _list_free, bind, live_nodes. simpl.
  destruct (decide (h = NULL)); [contradiction|].
  unfold bind, load_list, load_item, emit, free_item, free_list. st_simpl.
  rewrite cell_lookup by assumption. rewrite Hm. st_simpl.
  rewrite cell_lookup by assumption. rewrite Hi. st_simpl.
  rewrite cell_lookup by assumption. rewrite Hi. st_simpl.
  rewrite cell_lookup by assumption. rewrite Hm. st_simpl.
  destruct (size (list_mem s)); simpl;
    (destruct (decide (NULL = NULL)); [|contradiction]);
    rewrite <- app_assoc; reflexivity.
Qed.

(** X16: removing the primary key of a bucket with a chain returns with a
    copy of the chain head's item in the slot and the head's successor as
    the new chain; the removed item, the chain head and the head's own item
    are released, so the key and the resource that the slot now holds have
    been released too. *)
Theorem remove_primary_promotes_chain_head k v p h hi k2 v2 nx s :
  items s !! index_of k = Some p -> p <> NULL ->
  item_mem s !! p = Some (MapItem k v) ->
  overflow_list s !! index_of k = Some h -> h <> NULL ->
  list_mem s !! h = Some (ListNode hi nx) ->
  hi <> NULL -> hi <> p ->
  item_mem s !! hi = Some (MapItem k2 v2) ->
  hi <> Z.pos (brk s) ->
  lv_free_item sprintf_p k s = Done tt (promoted sprintf_p k v p h hi k2 v2 nx s) /\
  (exists q, items (promoted sprintf_p k v p h hi k2 v2 nx s) !! index_of k = Some q /\
     item_mem (promoted sprintf_p k v p h hi k2 v2 nx s) !! q = Some (MapItem k2 v2)) /\
  In (LvFreeKey k2) (trace (promoted sprintf_p k v p h hi k2 v2 nx s)) /\
  In (G2dFree v2) (trace (promoted sprintf_p k v p h hi k2 v2 nx s)).
Proof.
  intros Hp Hpn Hpi Hh Hhn Hm Hhin Hne Hhi Hfresh.
  split; [|split; [|split]].
  - unfold lv_free_item, bind at 1 2, get_items, get_overflow_list.
    rewrite Hp, Hh.
    destruct (decide (p = NULL)); [contradiction|].
    destruct (decide (h = NULL)); [contradiction|].
    unfold bind at 1. unfold load_item at 1. rewrite cell_lookup by assumption.
    rewrite Hpi. cbn [key]. destruct (decide (k = k)); [|contradiction].
    unfold bind at 1. unfold _map_free_item, bind, load_item, emit, free_item.
    st_simpl. rewrite cell_lookup by assumption. rewrite Hpi. st_simpl.
    rewrite cell_lookup by assumption. rewrite Hpi. st_simpl.
    unfold load_list. st_simpl. rewrite cell_lookup by assumption. rewrite Hm.
    unfold store_list_next, bind, load_list, store_list. st_simpl.
    rewrite cell_lookup by assumption. rewrite Hm. st_simpl.
    rewrite cell_lookup by assumption. rewrite Hm. st_simpl.
    rewrite cell_lookup by assumption. rewrite lookup_insert_eq. st_simpl.
    rewrite cell_lookup by assumption.
    rewrite lookup_delete_ne by congruence. rewrite Hhi.
    unfold _map_create_item, set_items. st_simpl. rewrite Hp.
    erewrite list_free_single; [| assumption | exact Hhin | |].
    + unfold set_overflow_list. st_simpl. rewrite Hh.
      unfold promoted. st_simpl. rewrite delete_insert_eq.
      rewrite <- !app_assoc. reflexivity.
    + st_simpl. apply lookup_insert_eq.
    + st_simpl. rewrite lookup_insert_ne by congruence.
      rewrite lookup_delete_ne by congruence. exact Hhi.
  - exists (Z.pos (brk s)). unfold promoted. st_simpl. split.
    + apply list_lookup_insert_eq. eapply lookup_lt_Some. exact Hp.
    + rewrite lookup_delete_ne by congruence. apply lookup_insert_eq.
  - unfold promoted. st_simpl. apply in_or_app. right. simpl. auto.
  - unfold promoted. st_simpl. apply in_or_app. right. simpl. auto.
Qed.

End Promotion.

Section RoundTrip.
Variable uninit : ptr -> lv_list_t.
Variable sprintf_p : ptr -> string.
Local Abbreviation index_of := (index_of sprintf_p).

(** X17: in every reachable state an insert into a bucket whose slot is
    empty or holds the same key returns, and a search for the key then
    returns the inserted value. *)
Theorem reachable_insert_search_round_trip cs s k v p :
  session uninit sprintf_p cs = Done tt s ->
  items s !! index_of k = Some p ->
  (p = NULL \/ exists old, item_mem s !! p = Some (MapItem k old)) ->
  exists s', lv_insert_buf_map uninit sprintf_p k v s = Done tt s' /\
    lv_search_buf_map sprintf_p k s' = Done v s'.
Proof.
  intros H Hp Hcase.
  pose proof (session_inv uninit sprintf_p cs s H) as [I1 I2 I3 I4 I5].
  pose proof (session_heap_inv uninit sprintf_p cs s H) as [H1 _ H3 _ _].
  pose proof (lookup_lt_Some _ _ _ Hp) as Hlt.
  destruct (lookup_lt_is_Some_2 (overflow_list s) (index_of k)) as [h Hh]; [lia|].
  destruct (decide (p = NULL)) as [->|Hn].
  - assert (count s <> tsize s) as Hc.
    { pose proof (occupied_empty_slot _ _ Hp). rewrite I4, I1, I2 in *.
      unfold HASH_TABLE_SIZE in *. lia. }
    exists (inserted sprintf_p k v s).
    split; [apply insert_empty_slot; assumption|].
    apply (search_primary sprintf_p k v _ (Z.pos (brk s))).
    + simpl. apply list_lookup_insert_eq. assumption.
    + simpl. rewrite Hh. eauto.
    + simpl. rewrite cell_lookup by discriminate. apply lookup_insert_eq.
  - destruct Hcase as [|[old Hold]]; [contradiction|].
    assert (Z.pos (brk s) <> p) as Hne by (specialize (H3 _ _ Hp); lia).
    exists (updated k v p s). split.
    + rewrite (insert_occupied_slot uninit sprintf_p k v s p) by assumption.
      unfold store_item_value, load_item, store_item, bind, created, updated.
      st_simpl. rewrite cell_lookup by assumption.
      rewrite lookup_insert_ne by assumption. rewrite Hold. st_simpl.
      destruct (decide (k = k)); [|contradiction]. st_simpl.
      rewrite cell_lookup by assumption.
      rewrite lookup_insert_ne by assumption. rewrite Hold. st_simpl.
      rewrite cell_lookup by assumption.
      rewrite lookup_insert_ne by assumption. rewrite Hold. reflexivity.
    + apply (search_primary sprintf_p k v _ p).
      * exact Hp.
      * simpl. rewrite Hh. eauto.
      * unfold updated. st_simpl. rewrite cell_lookup by assumption.
        apply lookup_insert_eq.
Qed.

End RoundTrip.

(** ** The further properties on the concrete platform *)

Lemma search_reads_primary_only_witness :
  final (lv_search_buf_map glibc_p keyA one_key) = one_key /\
  (1001 = NULL \/
   exists p it, items one_key !! index_of glibc_p keyA = Some p /\ p <> NULL /\
     item_mem one_key !! p = Some it /\ key it = keyA /\ value it = 1001).
Proof.
  split.
  - apply (proj1 (search_reads_primary_only glibc_p keyA one_key)).
  - apply (proj2 (search_reads_primary_only glibc_p keyA one_key) 1001 one_key).
    vm_compute. reflexivity.
Defined.

Lemma reachable_bucket_in_bounds_witness :
  (exists p h, items flat_table !! index_of glibc_p keyB = Some p /\
               overflow_list flat_table !! index_of glibc_p keyB = Some h) /\
  0 <= count flat_table <= HASH_TABLE_SIZE.
Proof.
  apply (reachable_bucket_in_bounds zeroed glibc_p flat_calls flat_table keyB).
  vm_compute. reflexivity.
Defined.

Lemma calls_stay_in_their_bucket_witness :
  bucket 19 (final (lv_insert_buf_map zeroed glibc_p keyA 2002 one_key))
    = bucket 19 one_key /\
  bucket 19 (final (lv_free_item glibc_p keyA one_key)) = bucket 19 one_key.
Proof.
  apply (calls_stay_in_their_bucket zeroed glibc_p keyA 2002 19%nat one_key).
  vm_compute. lia.
Defined.

Lemma remove_only_entry_witness :
  lv_free_item glibc_p keyA one_key = Done tt (removed glibc_p keyA 1001 1 one_key) /\
  trace (removed glibc_p keyA 1001 1 one_key)
    = trace one_key ++ [LvFreeKey keyA; G2dFree 1001] /\
  count (removed glibc_p keyA 1001 1 one_key) = count one_key - 1 /\
  items (removed glibc_p keyA 1001 1 one_key) !! index_of glibc_p keyA = Some NULL /\
  item_mem (removed glibc_p keyA 1001 1 one_key) !! 1 = None /\
  lv_search_buf_map glibc_p keyA (removed glibc_p keyA 1001 1 one_key)
    = Done NULL (removed glibc_p keyA 1001 1 one_key) /\
  lv_free_item glibc_p keyA (removed glibc_p keyA 1001 1 one_key)
    = Done tt (removed glibc_p keyA 1001 1 one_key).
Proof.
  apply (remove_only_entry glibc_p keyA 1001 1 one_key).
  - vm_compute. reflexivity.
  - discriminate.
  - vm_compute. reflexivity.
  - vm_compute. reflexivity.
Defined.

Lemma first_collision_starts_chain_witness :
  lv_insert_buf_map zeroed glibc_p keyB 1002 one_key
    = Done tt (chained zeroed glibc_p keyB 1002 one_key) /\
  trace (chained zeroed glibc_p keyB 1002 one_key) = trace one_key /\
  count (chained zeroed glibc_p keyB 1002 one_key) = count one_key /\
  items (chained zeroed glibc_p keyB 1002 one_key) = items one_key /\
  lv_search_buf_map glibc_p keyB (chained zeroed glibc_p keyB 1002 one_key)
    = Done NULL (chained zeroed glibc_p keyB 1002 one_key) /\
  lv_search_buf_map glibc_p keyA (chained zeroed glibc_p keyB 1002 one_key)
    = Done 1001 (chained zeroed glibc_p keyB 1002 one_key).
Proof.
  apply (first_collision_starts_chain zeroed glibc_p keyB 1002 1 keyA 1001 one_key).
  - vm_compute. reflexivity.
  - discriminate.
  - vm_compute. reflexivity.
  - discriminate.
  - vm_compute. reflexivity.
  - vm_compute. reflexivity.
  - vm_compute. reflexivity.
Defined.

Lemma reachable_slots_are_allocated_witness :
  (exists it, item_mem two_keys !! 1 = Some it) /\
  (forall j, items two_keys !! j = Some 1 -> j = 18%nat) /\
  (forall a n, list_mem two_keys !! a = Some n -> item n <> 1).
Proof.
  apply (reachable_slots_are_allocated zeroed glibc_p
           [Insert keyA 1001; Insert keyB 1002] two_keys 18%nat 1).
  - vm_compute. reflexivity.
  - vm_compute. reflexivity.
  - discriminate.
Defined.


Lemma reachable_remove_without_chain_witness :
  exists s', lv_free_item glibc_p keyA flat_table = Done tt s' /\
    (s' = flat_table \/
     exists v p, items flat_table !! index_of glibc_p keyA = Some p /\
       item_mem flat_table !! p = Some (MapItem keyA v) /\
       s' = removed glibc_p keyA v p flat_table) /\
    lv_search_buf_map glibc_p keyA s' = Done NULL s' /\
    lv_free_item glibc_p keyA s' = Done tt s'.
Proof.
  apply (reachable_remove_without_chain zeroed glibc_p flat_calls flat_table keyA).
  - vm_compute. reflexivity.
  - vm_compute. reflexivity.
Defined.

Lemma teardown_without_chains_witness :
  exists s', lv_free_buf_map flat_table = Done tt s' /\
    trace s' = trace flat_table ++ slot_releases flat_table /\
    items s' = [] /\ overflow_list s' = [].
Proof.
  apply (teardown_without_chains zeroed glibc_p flat_calls flat_table).
  - vm_compute. reflexivity.
  - vm_compute. reflexivity.
Defined.

Lemma list_insert_appends_or_replaces_witness :
  (_list_insert zeroed 3 7 two_keys = Done 3 (linked 3 2 7 two_keys) /\
   chain (list_mem (linked 3 2 7 two_keys)) 3 [(3, 2); (Z.pos (brk two_keys), 7)]) /\
  (_list_insert zeroed 3 7 three_keys = Done 3 (linked 3 2 7 three_keys) /\
   chain (list_mem (linked 3 2 7 three_keys)) 3
     ([] ++ [(3, 2); (Z.pos (brk three_keys), 7)]) /\
   list_mem (linked 3 2 7 three_keys) !! 5 = Some (ListNode 4 NULL)).
Proof.
  split.
  - apply (proj1 (list_insert_appends_or_replaces zeroed 7 two_keys 3 [] 3 2
                    ltac:(vm_compute; reflexivity))).
    split; [reflexivity|]. split; [discriminate|]. exists NULL.
    split; [vm_compute; reflexivity | reflexivity].
  - apply (proj2 (list_insert_appends_or_replaces zeroed 7 three_keys 3 [] 3 2
                    ltac:(vm_compute; reflexivity)) 5 4).
    split; [reflexivity|]. split; [discriminate|]. exists 5.
    split; [vm_compute; reflexivity|].
    split; [reflexivity|]. split; [discriminate|]. exists NULL.
    split; [vm_compute; reflexivity | reflexivity].
Defined.

Lemma hash_of_anagrams_collide_witness :
  _map_hash_function glibc_p keyA =
    (code_sum (list_ascii_of_string (glibc_p keyA)) mod 2 ^ 64) mod HASH_TABLE_SIZE /\
  _map_hash_function glibc_p keyA = _map_hash_function glibc_p keyB.
Proof.
  apply (hash_of_anagrams_collide glibc_p keyA keyB).
  - vm_compute. repeat constructor; discriminate.
  - vm_compute. apply perm_skip, perm_skip, perm_skip, perm_swap.
Defined.

Lemma list_remove_returns_no_item_witness :
  _list_remove 3 two_keys = Done NULL two_keys /\
  _list_remove 3 three_keys =
    Abort BadAccess
      (with_list_mem (<[3 := ListNode 2 NULL]> (list_mem three_keys)) three_keys).
Proof.
  split.
  - apply (proj1 (proj2 (list_remove_returns_no_item 3 two_keys)) 2).
    + discriminate.
    + vm_compute. reflexivity.
  - apply (proj1 (proj2 (proj2 (list_remove_returns_no_item 3 three_keys))) 2 5).
    + discriminate.
    + vm_compute. reflexivity.
    + discriminate.
Defined.

Lemma print_table_lists_primary_slots_witness :
  exists rows,
    print_table two_keys =
      Done (LogText table_header :: rows ++ [LogText table_footer]) two_keys /\
    Z.of_nat (length rows) = count two_keys /\
    forall j k v, LogSlot j k v ∈ rows <->
      exists p, items two_keys !! j = Some p /\ p <> NULL /\
                item_mem two_keys !! p = Some (MapItem k v).
Proof.
  apply (print_table_lists_primary_slots zeroed glibc_p
           [Insert keyA 1001; Insert keyB 1002] two_keys).
  vm_compute. reflexivity.
Defined.

Lemma remove_primary_promotes_chain_head_witness :
  lv_free_item glibc_p keyA two_keys
    = Done tt (promoted glibc_p keyA 1001 1 3 2 keyB 1002 NULL two_keys) /\
  (exists q,
     items (promoted glibc_p keyA 1001 1 3 2 keyB 1002 NULL two_keys)
       !! index_of glibc_p keyA = Some q /\
     item_mem (promoted glibc_p keyA 1001 1 3 2 keyB 1002 NULL two_keys) !! q
       = Some (MapItem keyB 1002)) /\
  In (LvFreeKey keyB)
     (trace (promoted glibc_p keyA 1001 1 3 2 keyB 1002 NULL two_keys)) /\
  In (G2dFree 1002)
     (trace (promoted glibc_p keyA 1001 1 3 2 keyB 1002 NULL two_keys)).
Proof.
  apply (remove_primary_promotes_chain_head glibc_p keyA 1001 1 3 2 keyB 1002
           NULL two_keys).
  - vm_compute. reflexivity.
  - discriminate.
  - vm_compute. reflexivity.
  - vm_compute. reflexivity.
  - discriminate.
  - vm_compute. reflexivity.
  - discriminate.
  - discriminate.
  - vm_compute. reflexivity.
  - vm_compute. discriminate.
Defined.

Lemma reachable_insert_search_round_trip_witness :
  exists s', lv_insert_buf_map zeroed glibc_p keyA 2002 one_key = Done tt s' /\
    lv_search_buf_map glibc_p keyA s' = Done 2002 s'.
Proof.
  apply (reachable_insert_search_round_trip zeroed glibc_p
           [Insert keyA 1001] one_key keyA 2002 1).
  - vm_compute. reflexivity.
  - vm_compute. reflexivity.
  - right. exists 1001. vm_compute. reflexivity.
Defined.
